(** * The You.com node: request building, validation and the batch runner

    A shallow embedding of [nodes/YouDotCom/YouDotCom.node.ts] and
    [nodes/YouDotCom/YouDotCom.schemas.ts].

    - JavaScript strings are sequences of UTF-16 code units ([jsstring]).
    - JavaScript values are the JSON-like tree [value]; an object is the
      ordered list of its own properties.
    - The host ([IExecuteFunctions]) is a record of the functions the node
      calls on [this] / [context].
    - [async] code is sequential; it is written in a small monad [M] that
      threads the log of HTTP requests issued so far and propagates the
      thrown error.
    - The validation library is not part of the sources; its combinators
      are modelled, the schemas built from them are those of the sources. *)

From Stdlib Require Import String Ascii.
From Stdlib Require Import List ZArith NArith QArith Bool Arith Lia.
From Stdlib Require Import DecimalString.
Import ListNotations.

Close Scope Q_scope.
Close Scope Z_scope.
Open Scope list_scope.
Open Scope nat_scope.

Set Warnings "-register-all".

(* ================================================================== *)
(** ** Strings *)

Module JsString.

(** A string is its sequence of UTF-16 code units. *)
Definition jsstring := list N.

(** The code units of a literal. *)
Fixpoint js (s : string) : jsstring :=
  match s with
  | EmptyString => []
  | String c rest => N_of_ascii c :: js rest
  end.

Fixpoint eqb (a b : jsstring) : bool :=
  match a, b with
  | [], [] => true
  | x :: a', y :: b' => N.eqb x y && eqb a' b'
  | _, _ => false
  end.

Definition comma : N := 44.
Definition dot : N := 46.
Definition LF : N := 10.

(** [WhiteSpace] and [LineTerminator] of ECMAScript, the code units
    that [String.prototype.trim] strips. *)
Definition isWhiteSpace (c : N) : bool :=
  existsb (N.eqb c)
    [9; 10; 11; 12; 13; 32; 160; 5760; 8232; 8233; 8239; 8287; 12288; 65279]%N
  || (N.leb 8192 c && N.leb c 8202).

Fixpoint trimStart (s : jsstring) : jsstring :=
  match s with
  | c :: rest => if isWhiteSpace c then trimStart rest else s
  | [] => []
  end.

Definition trimEnd (s : jsstring) : jsstring := rev (trimStart (rev s)).

(** [s.trim()] *)
Definition trim (s : jsstring) : jsstring := trimEnd (trimStart s).

(** [s.split(sep)] for a separator of one code unit: the pieces between
    the separators, [[""]] for the empty string. *)
Fixpoint split (sep : N) (s : jsstring) : list jsstring :=
  match s with
  | [] => [[]]
  | c :: rest =>
      if N.eqb c sep then [] :: split sep rest
      else match split sep rest with
           | piece :: pieces => (c :: piece) :: pieces
           | [] => [[c]]
           end
  end.

(** [pieces.join(sep)] *)
Fixpoint join (sep : jsstring) (pieces : list jsstring) : jsstring :=
  match pieces with
  | [] => []
  | [p] => p
  | p :: rest => p ++ sep ++ join sep rest
  end.

(** [String(n)] for a non-negative integer. *)
Definition ofNat (n : nat) : jsstring :=
  js (NilEmpty.string_of_uint (Nat.to_uint n)).

(** The string neither begins nor ends with a white-space code unit. *)
Definition startsClean (s : jsstring) : bool :=
  match s with
  | c :: _ => negb (isWhiteSpace c)
  | [] => true
  end.

Definition endsClean (s : jsstring) : bool := startsClean (rev s).

(** Only white space. *)
Definition isBlank (s : jsstring) : bool := forallb isWhiteSpace s.

End JsString.
Import JsString.

(* ================================================================== *)
(** ** Numbers and values *)

(** A JavaScript number: a finite value (every finite double is a
    rational), [NaN], or an infinity. *)
Inductive number :=
| Finite (q : Q)
| NaN
| Infinity (negative : bool).

(** [Number.isInteger(n)] *)
Definition isInteger (n : number) : bool :=
  match n with
  | Finite q => Z.eqb (Z.modulo (Qnum q) (Z.pos (Qden q))) 0
  | _ => false
  end.

(** [n < z] and [n > z] against an integer constant. *)
Definition num_lt (n : number) (z : Z) : bool :=
  match n with
  | Finite q => negb (Qle_bool (inject_Z z) q)
  | NaN => false
  | Infinity negative => negative
  end.

Definition num_gt (n : number) (z : Z) : bool :=
  match n with
  | Finite q => negb (Qle_bool q (inject_Z z))
  | NaN => false
  | Infinity negative => negb negative
  end.

(** A JavaScript value as it travels through the node: node parameters,
    request payloads and API responses.  An object is the ordered list of
    its properties. *)
Inductive value :=
| VUndefined
| VNull
| VBool (b : bool)
| VNum (n : number)
| VStr (s : jsstring)
| VArr (items : list value)
| VObj (fields : list (jsstring * value)).

(** [key in obj] *)
Fixpoint has (k : jsstring) (fields : list (jsstring * value)) : bool :=
  match fields with
  | [] => false
  | (k', _) :: rest => eqb k k' || has k rest
  end.

(** [obj[key]]; [undefined] when the property is missing. *)
Fixpoint get (k : jsstring) (fields : list (jsstring * value)) : value :=
  match fields with
  | [] => VUndefined
  | (k', v) :: rest => if eqb k k' then v else get k rest
  end.

(** [obj[key] = v]: overwrite in place, or add as the last property. *)
Fixpoint set (k : jsstring) (v : value) (fields : list (jsstring * value))
  : list (jsstring * value) :=
  match fields with
  | [] => [(k, v)]
  | (k', v') :: rest =>
      if eqb k k' then (k', v) :: rest else (k', v') :: set k v rest
  end.

(** [value.key] on an arbitrary value. *)
Definition prop (v : value) (k : jsstring) : value :=
  match v with
  | VObj fields => get k fields
  | _ => VUndefined
  end.

(** The truthiness test of [if (x)], [x && y] and [x || y]. *)
Definition truthy (v : value) : bool :=
  match v with
  | VUndefined | VNull => false
  | VBool b => b
  | VNum (Finite q) => negb (Qeq_bool q (inject_Z 0))
  | VNum NaN => false
  | VNum (Infinity _) => true
  | VStr s => match s with [] => false | _ => true end
  | VArr _ | VObj _ => true
  end.

Definition isUndefined (v : value) : bool :=
  match v with VUndefined => true | _ => false end.

(** [f(x, i)] over a list, as [Array.prototype.map] passes the index. *)
Fixpoint mapi_from {A B : Type} (i : nat) (f : A -> nat -> B) (l : list A)
  : list B :=
  match l with
  | [] => []
  | x :: rest => f x i :: mapi_from (S i) f rest
  end.

Definition mapi {A B : Type} (f : A -> nat -> B) (l : list A) : list B :=
  mapi_from 0 f l.

(* ================================================================== *)
(** ** The validation engine *)

(** The validation library ([zod]) is a dependency of the package; its
    sources are not part of the repository.  What the node and the schemas
    use of it is modelled here: schemas as functions from an input to a
    status, an output and a list of issues. *)

(** A segment of an issue path ([issue.path]): a property name or an
    array index. *)
Inductive PathSeg :=
| Key (k : jsstring)
| Index (i : nat).

(** Modelled from the spec: the violation-kind tokens ([issue.code]) of
    the validation library that the schemas below can raise. *)
Inductive ZodIssueCode :=
| invalid_type
| invalid_enum_value
| invalid_string
| too_small
| too_big.

(** What the [catch] block of [execute] reads of an issue. *)
Record ZodIssue := {
  code : ZodIssueCode;
  path : list PathSeg;
  message : jsstring
}.

(** Modelled from the spec: the outcome of a schema of the validation
    library on one input: accepted, accepted with issues, or refused. *)
Inductive ParseStatus := valid | dirty | aborted.

(** Modelled from the spec: what a schema of the validation library
    returns for one input: the status, the parsed value and the issues it
    added, in the order it added them. *)
Record ParseReturn := {
  status : ParseStatus;
  output : value;
  issues : list ZodIssue
}.

(** Modelled from the spec: a schema of the validation library, from the
    path of the input inside the whole payload and the input to the
    result. *)
Definition ZodType := list PathSeg -> value -> ParseReturn.

(** Modelled from the spec: the accepting and the refusing result of the
    validation library. *)
Definition OK (v : value) : ParseReturn :=
  {| status := valid; output := v; issues := [] |}.

Definition INVALID (iss : list ZodIssue) : ParseReturn :=
  {| status := aborted; output := VUndefined; issues := iss |}.

Definition isAborted (r : ParseReturn) : bool :=
  match status r with aborted => true | _ => false end.

Definition isDirty (r : ParseReturn) : bool :=
  match status r with dirty => true | _ => false end.

(** Modelled from the spec: the checks chained on [z.number()]. *)
Inductive NumberCheck :=
| Int
| Min (bound : Z)
| Max (bound : Z).

(** Modelled from the spec: the issue a numeric check of the validation
    library raises on [n], if any; both bounds are inclusive. *)
Definition failedCheck (c : NumberCheck) (n : number) : option ZodIssueCode :=
  match c with
  | Int => if isInteger n then None else Some invalid_type
  | Min bound => if num_lt n bound then Some too_small else None
  | Max bound => if num_gt n bound then Some too_big else None
  end.

(** Modelled from the spec: what an object schema of the validation
    library does with keys it does not declare. *)
Inductive UnknownKeys := strip | passthrough.

(** What is thrown inside the [try] block of [execute]. *)
Inductive Thrown :=
| ZodError (issues : list ZodIssue)
| NodeOperationError (message : jsstring) (itemIndex : nat)
| Error (message : jsstring).

(* ================================================================== *)
(** ** The host and the execution monad *)

Inductive Method := GET | POST.

(** The options the node passes to the HTTP helper.  [jsonFlag] is the
    [json: true] entry. *)
Record IHttpRequestOptions := {
  method : Method;
  url : jsstring;
  headers : list (jsstring * jsstring);
  qs : option (list (jsstring * value));
  body : option (list (jsstring * value));
  jsonFlag : bool
}.

(** One record of the output list; [pairedItem] is the index of the
    input item it belongs to. *)
Record INodeExecutionData := {
  json : value;
  pairedItem : nat
}.

(** The requests issued so far, oldest first. *)
Definition Log := list IHttpRequestOptions.

(** What the node calls on the host.  The HTTP helper answers with the
    response payload or fails with the message of the error it throws; its
    answer may depend on everything requested before. *)
Record IExecuteFunctions := {
  getInputData : list INodeExecutionData;
  getNodeParameter : jsstring -> nat -> value;
  continueOnFail : bool;
  httpRequestWithAuthentication :
    Log -> jsstring -> IHttpRequestOptions -> jsstring + value;
  returnJsonArray : value -> list INodeExecutionData;
  constructExecutionMetaData :
    list INodeExecutionData -> nat -> list INodeExecutionData
}.

(** Sequential code that may throw and may issue HTTP requests. *)
Definition M (A : Type) : Type := Log -> (Thrown + A) * Log.

Definition ret {A : Type} (a : A) : M A := fun log => (inr a, log).

Definition throw {A : Type} (e : Thrown) : M A := fun log => (inl e, log).

Definition lift {A : Type} (r : Thrown + A) : M A := fun log => (r, log).

Definition bind {A B : Type} (m : M A) (k : A -> M B) : M B := fun log =>
  match m log with
  | (inl e, log') => (inl e, log')
  | (inr a, log') => k a log'
  end.

Notation "x <- m ;; k" := (bind m (fun x => k))
  (at level 61, m at next level, right associativity).

(** [await context.helpers.httpRequestWithAuthentication.call(context,
    credentials, options)] *)
Definition httpRequest (context : IExecuteFunctions) (credentials : jsstring)
  (options : IHttpRequestOptions) : M value := fun log =>
  (match httpRequestWithAuthentication context log credentials options with
   | inl msg => inl (Error msg)
   | inr response => inr response
   end, log ++ [options]).

(** The thrown [NodeApiError]: the object it wraps (a JSON payload, or
    the caught error itself) and the index of the item. *)
Record NodeApiError := {
  errorResponse : value + Thrown;
  itemIndex : nat
}.

(** How [execute] ends. *)
Inductive Completion :=
| Returned (returnData : list INodeExecutionData)
| Threw (e : NodeApiError).

Definition PACKAGE_VERSION : jsstring := js "0.2.5".

Definition USER_AGENT : jsstring :=
  js "n8n-nodes-youdotcom/" ++ PACKAGE_VERSION
  ++ js " (https://github.com/youdotcom-oss/n8n-nodes-youdotcom)".

(** [value === 'literal'] *)
Definition isString (v : value) (literal : jsstring) : bool :=
  match v with
  | VStr s => eqb s literal
  | _ => false
  end.

(** [value.length > 0] *)
Definition lengthPositive (v : value) : bool :=
  match v with
  | VArr items => 0 <? length items
  | VStr s => 0 <? length s
  | _ => false
  end.

(** [if (cond) obj[key] = v] *)
Definition assignIf (cond : bool) (k : jsstring) (v : value)
  (obj : list (jsstring * value)) : list (jsstring * value) :=
  if cond then set k v obj else obj.

(** [(error as Error).message], read in the branch of the [catch] block
    that a [ZodError] never reaches. *)
Definition messageOf (e : Thrown) : jsstring :=
  match e with
  | ZodError _ => []
  | NodeOperationError msg _ => msg
  | Error msg => msg
  end.

Definition codeToken (c : ZodIssueCode) : jsstring :=
  match c with
  | invalid_type => js "invalid_type"
  | invalid_enum_value => js "invalid_enum_value"
  | invalid_string => js "invalid_string"
  | too_small => js "too_small"
  | too_big => js "too_big"
  end.

Definition segString (seg : PathSeg) : jsstring :=
  match seg with
  | Key k => k
  | Index i => ofNat i
  end.

(** [path.join('.')] *)
Definition joinPath (p : list PathSeg) : jsstring :=
  join [dot] (map segString p).

(** [s || 'root'] *)
Definition orRoot (s : jsstring) : jsstring :=
  match s with
  | [] => js "root"
  | _ => s
  end.

(** One line of the validation message:
    [`  ${i + 1}. ${e.path.join('.') || 'root'}: ${e.message}`]. *)
Definition issueLine (e : ZodIssue) (i : nat) : jsstring :=
  js "  " ++ ofNat (i + 1) ++ js ". " ++ orRoot (joinPath (path e))
  ++ js ": " ++ message e.

(** [errorMessage] of the [catch] block. *)
Definition errorMessage (issues : list ZodIssue) : jsstring :=
  js "Validation error:" ++ [LF] ++ join [LF] (mapi issueLine issues).

(** [serializedIssues] of the [catch] block. *)
Definition serializedIssues (issues : list ZodIssue) : list value :=
  map (fun issue =>
         VObj [ (js "path", VStr (joinPath (path issue)));
                (js "message", VStr (message issue));
                (js "code", VStr (codeToken (code issue))) ])
      issues.

(** The message of the [TypeError] raised by [urlsString.split] when the
    parameter is not a string. *)
Definition splitTypeError (v : value) : jsstring :=
  match v with
  | VUndefined => js "Cannot read properties of undefined (reading 'split')"
  | VNull => js "Cannot read properties of null (reading 'split')"
  | _ => js "urlsString.split is not a function"
  end.

(** The URL list of the contents operation:
    [urlsString.split(',').map(trim).filter(nonempty)]. *)
Definition parseUrls (urlsString : jsstring) : list jsstring :=
  filter (fun url => 0 <? length url) (map trim (split comma urlsString)).

(* ================================================================== *)
(** ** Sample hosts *)

Module Sample.

Definition errorMap (c : ZodIssueCode) (p : list PathSeg) (data : value)
  : jsstring :=
  match c with
  | invalid_type => js "Invalid input"
  | invalid_enum_value => js "Invalid enum value"
  | invalid_string => js "Invalid url"
  | too_small => js "Number is too small"
  | too_big => js "Number is too big"
  end.

Definition isURL (s : jsstring) : bool :=
  eqb (firstn 7 s) (js "http://") || eqb (firstn 8 s) (js "https://").

Definition num (z : Z) : value := VNum (Finite (inject_Z z)).

Definition jsonArray (v : value) : list INodeExecutionData :=
  match v with
  | VArr items => map (fun j => {| json := j; pairedItem := 0 |}) items
  | _ => [{| json := v; pairedItem := 0 |}]
  end.

Definition metaData (data : list INodeExecutionData)
  (i : nat) : list INodeExecutionData :=
  map (fun d => {| json := json d; pairedItem := i |}) data.

Definition searchResponse : value :=
  VObj [ (js "results",
           VObj [ (js "web",
                    VArr [ VObj [ (js "url", VStr (js "https://a.com"));
                                  (js "title", VStr (js "A"));
                                  (js "description", VStr (js "first")) ] ]) ]) ].

Definition contentsResponse : value :=
  VArr [ VObj [ (js "url", VStr (js "https://a.com"));
                (js "markdown", VStr (js "# A")) ] ].

(** An upstream that answers every search and every contents request. *)
Definition http (log : Log) (credentials : jsstring)
  (options : IHttpRequestOptions) : jsstring + value :=
  match method options with
  | GET => inr searchResponse
  | POST => inr contentsResponse
  end.

(** A host with [n] input items whose parameters are given per item. *)
Definition context (params : nat -> list (jsstring * value)) (n : nat)
  (continue : bool) : IExecuteFunctions :=
  {| getInputData := repeat {| json := VObj []; pairedItem := 0 |} n;
     getNodeParameter := fun name i => get name (params i);
     continueOnFail := continue;
     httpRequestWithAuthentication := http;
     returnJsonArray := jsonArray;
     constructExecutionMetaData := metaData |}.

Definition searchItem (options : list (jsstring * value))
  : list (jsstring * value) :=
  [ (js "operation", VStr (js "search"));
    (js "query", VStr (js "rocq"));
    (js "searchOptions", VObj options) ].

Definition contentsItem (urls : string) (options : list (jsstring * value))
  : list (jsstring * value) :=
  [ (js "operation", VStr (js "contents"));
    (js "urls", VStr (js urls));
    (js "contentsOptions", VObj options) ].

(** Three search items; the second one asks for [count = 0]. *)
Definition batch3 (i : nat) : list (jsstring * value) :=
  match i with
  | 1 => searchItem [(js "count", num 0)]
  | _ => searchItem []
  end.

(** One item whose operation is not one of the two known tokens. *)
Definition unknownOperation (i : nat) : list (jsstring * value) :=
  [ (js "operation", VStr (js "delete")); (js "query", VStr (js "rocq")) ].

End Sample.

(** A contents result with the required field only: a [url] the URL
    parser accepts, and none of the optional fields. *)
Definition minimalResult (isURL : jsstring -> bool)
  (fields : list (jsstring * value)) : Prop :=
  (exists u, get (js "url") fields = VStr u /\ isURL u = true)
  /\ get (js "markdown") fields = VUndefined
  /\ get (js "html") fields = VUndefined
  /\ get (js "metadata") fields = VUndefined.

Section Node.

(** The message catalogue of the validation engine: the human-readable
    text of an issue of the given kind, at the given path, for the given
    offending input. *)
Variable errorMap : ZodIssueCode -> list PathSeg -> value -> jsstring.

(** Whether the platform's URL parser accepts the string. *)
Variable isURL : jsstring -> bool.

(** Modelled from the spec: the issue the validation library records for
    a violation of kind [c] at path [p] on the input [data]. *)
Definition addIssue (c : ZodIssueCode) (p : list PathSeg) (data : value)
  : ZodIssue :=
  {| code := c; path := p; message := errorMap c p data |}.

(** Modelled from the spec: [z.string()] and [z.string().url()] of the
    validation library, which is a dependency and not part of the sources.
    No coercion: anything but a string is a type violation; with the URL
    check a string the URL parser refuses is a violation too. *)
Definition z_string (url : bool) : ZodType := fun p data =>
  match data with
  | VStr s =>
      if url && negb (isURL s)
      then {| status := dirty; output := data;
              issues := [addIssue invalid_string p data] |}
      else OK data
  | _ => INVALID [addIssue invalid_type p data]
  end.

(** Modelled from the spec: [z.number()] with its chain of checks
    ([.int()], [.min(b)], [.max(b)]) of the validation library.  A value
    that is not a number (or is [NaN]) is a type violation; on a number
    every check runs and each failed one adds its issue. *)
Definition z_number (checks : list NumberCheck) : ZodType := fun p data =>
  match data with
  | VNum NaN => INVALID [addIssue invalid_type p data]
  | VNum n =>
      let iss :=
        flat_map (fun c => match failedCheck c n with
                           | Some c' => [addIssue c' p data]
                           | None => []
                           end) checks in
      {| status := match iss with [] => valid | _ => dirty end;
         output := data; issues := iss |}
  | _ => INVALID [addIssue invalid_type p data]
  end.

(** Modelled from the spec: [z.enum([...])] of the validation library: a
    case-sensitive exact match against the declared strings. *)
Definition z_enum (values : list jsstring) : ZodType := fun p data =>
  match data with
  | VStr s =>
      if existsb (eqb s) values then OK data
      else INVALID [addIssue invalid_enum_value p data]
  | _ => INVALID [addIssue invalid_type p data]
  end.

(** Modelled from the spec: [z.unknown()] of the validation library. *)
Definition z_unknown : ZodType := fun _ data => OK data.

(** Modelled from the spec: [.optional()] of the validation library: an
    absent ([undefined]) input is accepted and stays absent. *)
Definition optional (inner : ZodType) : ZodType := fun p data =>
  match data with
  | VUndefined => OK VUndefined
  | _ => inner p data
  end.

(** Modelled from the spec: how the validation library combines the
    results of the elements of an array. *)
Definition mergeArray (results : list ParseReturn) : ParseReturn :=
  let iss := flat_map issues results in
  if existsb isAborted results then INVALID iss
  else {| status := if existsb isDirty results then dirty else valid;
          output := VArr (map output results);
          issues := iss |}.

(** Modelled from the spec: [z.array(element)] of the validation library:
    every element is checked, at the path extended by its index. *)
Definition z_array (element : ZodType) : ZodType := fun p data =>
  match data with
  | VArr items =>
      mergeArray (mapi (fun item i => element (p ++ [Index i]) item) items)
  | _ => INVALID [addIssue invalid_type p data]
  end.

(** Modelled from the spec: one step of the loop by which the validation
    library builds the result of an object.  A property is written to the
    result when its value is defined or the input had the key. *)
Definition writePair (obj : list (jsstring * value))
  (pr : jsstring * ParseReturn * bool) : list (jsstring * value) :=
  let '(k, r, alwaysSet) := pr in
  if negb (isUndefined (output r)) || alwaysSet
  then set k (output r) obj else obj.

(** Modelled from the spec: how the validation library combines the
    results of the properties of an object. *)
Definition mergeObjectSync (pairs : list (jsstring * ParseReturn * bool))
  : ParseReturn :=
  let iss := flat_map (fun pr => issues (snd (fst pr))) pairs in
  if existsb (fun pr => isAborted (snd (fst pr))) pairs then INVALID iss
  else {| status := if existsb (fun pr => isDirty (snd (fst pr))) pairs
                    then dirty else valid;
          output := VObj (fold_left writePair pairs []);
          issues := iss |}.

Definition isKnown (shape : list (jsstring * ZodType)) (k : jsstring) : bool :=
  existsb (eqb k) (map fst shape).

(** Modelled from the spec: [z.object(shape)] of the validation library,
    closed ([strip]: unknown keys are dropped) or open ([passthrough]:
    unknown keys are copied to the result unchanged).  Every declared
    field is checked, at the path extended by its name, whatever the
    other fields did. *)
Definition z_object (shape : list (jsstring * ZodType))
  (unknownKeys : UnknownKeys) : ZodType := fun p data =>
  match data with
  | VObj fields =>
      let known :=
        map (fun ks => (fst ks, snd ks (p ++ [Key (fst ks)]) (get (fst ks) fields),
                        has (fst ks) fields)) shape in
      let extraKeys :=
        filter (fun k => negb (isKnown shape k)) (map fst fields) in
      let extra :=
        match unknownKeys with
        | passthrough => map (fun k => (k, OK (get k fields), false)) extraKeys
        | strip => []
        end in
      mergeObjectSync (known ++ extra)
  | _ => INVALID [addIssue invalid_type p data]
  end.

(** Modelled from the spec: [z.record(z.string(), valueType)] of the
    validation library: an object with arbitrary keys. *)
Definition z_record (valueType : ZodType) : ZodType := fun p data =>
  match data with
  | VObj fields =>
      mergeObjectSync
        (map (fun kv => (fst kv, valueType (p ++ [Key (fst kv)]) (snd kv), true))
             fields)
  | _ => INVALID [addIssue invalid_type p data]
  end.

(** Modelled from the spec: [schema.parse(data)] of the validation
    library: the parsed value, or a thrown [ZodError] with the issues. *)
Definition parse (schema : ZodType) (data : value) : Thrown + value :=
  let r := schema [] data in
  match status r with
  | valid => inr (output r)
  | _ =>
      match issues r with
      | [] => inl (Error (js "Validation failed but no issues detected."))
      | iss => inl (ZodError iss)
      end
  end.

(* ------------------------------------------------------------------ *)
(** *** The schemas of [YouDotCom.schemas.ts] *)

Definition SearchOptionsShape : list (jsstring * ZodType) :=
  [ (js "count", optional (z_number [Int; Min 1; Max 100]));
    (js "country", optional (z_string false));
    (js "freshness",
      optional (z_enum [js "day"; js "week"; js "month"; js "year"]));
    (js "language", optional (z_string false));
    (js "livecrawl", optional (z_enum [js "web"; js "news"; js "all"]));
    (js "livecrawl_formats", optional (z_enum [js "html"; js "markdown"]));
    (js "offset", optional (z_number [Int; Min 0; Max 9]));
    (js "safesearch",
      optional (z_enum [js "off"; js "moderate"; js "strict"])) ].

Definition SearchOptionsSchema : ZodType := z_object SearchOptionsShape strip.

Definition WebResultSchema : ZodType :=
  z_object
    [ (js "url", z_string false);
      (js "title", z_string false);
      (js "description", z_string false);
      (js "snippets", optional (z_array (z_string false)));
      (js "page_age", optional (z_string false)) ]
    passthrough.

Definition NewsResultSchema : ZodType :=
  z_object
    [ (js "url", z_string false);
      (js "title", z_string false);
      (js "description", z_string false);
      (js "page_age", optional (z_string false)) ]
    passthrough.

Definition MetadataSchema : ZodType :=
  z_object
    [ (js "search_uuid", optional (z_string false));
      (js "query", optional (z_string false));
      (js "latency", optional (z_number [])) ]
    passthrough.

Definition SearchResponseShape : list (jsstring * ZodType) :=
  [ (js "results",
      z_object
        [ (js "web", optional (z_array WebResultSchema));
          (js "news", optional (z_array NewsResultSchema)) ]
        passthrough);
    (js "metadata", optional MetadataSchema) ].

Definition SearchResponseSchema : ZodType :=
  z_object SearchResponseShape passthrough.

Definition ContentsOptionsShape : list (jsstring * ZodType) :=
  [ (js "formats",
      optional (z_array (z_enum [js "markdown"; js "html"; js "metadata"])));
    (js "crawl_timeout", optional (z_number [Int; Min 1; Max 60])) ].

Definition ContentsOptionsSchema : ZodType :=
  z_object ContentsOptionsShape strip.

Definition ContentsResultShape : list (jsstring * ZodType) :=
  [ (js "url", z_string true);
    (js "markdown", optional (z_string false));
    (js "html", optional (z_string false));
    (js "metadata", optional (z_record z_unknown)) ].

Definition ContentsResponseSchema : ZodType :=
  z_array (z_object ContentsResultShape passthrough).


(* ------------------------------------------------------------------ *)
(** *** [YouDotCom.node.ts] *)

(** The query string of the search request, from the validated options. *)
Definition searchQs (query options : value) : list (jsstring * value) :=
  let qs := [(js "query", query)] in
  let qs := assignIf (truthy (prop options (js "count")))
              (js "count") (prop options (js "count")) qs in
  let qs := assignIf (truthy (prop options (js "country")))
              (js "country") (prop options (js "country")) qs in
  let qs := assignIf (truthy (prop options (js "freshness")))
              (js "freshness") (prop options (js "freshness")) qs in
  let qs := assignIf (truthy (prop options (js "language")))
              (js "language") (prop options (js "language")) qs in
  let qs := assignIf (truthy (prop options (js "livecrawl")))
              (js "livecrawl") (prop options (js "livecrawl")) qs in
  let qs := assignIf (truthy (prop options (js "livecrawl_formats")))
              (js "livecrawl_formats") (prop options (js "livecrawl_formats")) qs in
  let qs := assignIf (negb (isUndefined (prop options (js "offset"))))
              (js "offset") (prop options (js "offset")) qs in
  let qs := assignIf (truthy (prop options (js "safesearch")))
              (js "safesearch") (prop options (js "safesearch")) qs in
  qs.

Definition searchRequest (query options : value) : IHttpRequestOptions :=
  {| method := GET;
     url := js "https://ydc-index.io/v1/search";
     headers := [(js "User-Agent", USER_AGENT)];
     qs := Some (searchQs query options);
     body := None;
     jsonFlag := true |}.

Definition executeSearch (context : IExecuteFunctions) (itemIndex : nat)
  : M value :=
  let query := getNodeParameter context (js "query") itemIndex in
  let rawOptions := getNodeParameter context (js "searchOptions") itemIndex in
  options <- lift (parse SearchOptionsSchema rawOptions) ;;
  rawResponse <- httpRequest context (js "youDotComApi")
                   (searchRequest query options) ;;
  response <- lift (parse SearchResponseSchema rawResponse) ;;
  ret response.

(** The body of the contents request, from the URL list and the
    validated options. *)
Definition contentsBody (urls : list jsstring) (options : value)
  : list (jsstring * value) :=
  let body := [(js "urls", VArr (map VStr urls))] in
  let body := assignIf (truthy (prop options (js "formats"))
                        && lengthPositive (prop options (js "formats")))
                (js "formats") (prop options (js "formats")) body in
  let body := assignIf (truthy (prop options (js "crawl_timeout")))
                (js "crawl_timeout") (prop options (js "crawl_timeout")) body in
  body.

Definition contentsRequest (urls : list jsstring) (options : value)
  : IHttpRequestOptions :=
  {| method := POST;
     url := js "https://ydc-index.io/v1/contents";
     headers := [(js "User-Agent", USER_AGENT)];
     qs := None;
     body := Some (contentsBody urls options);
     jsonFlag := true |}.

Definition executeContents (context : IExecuteFunctions) (itemIndex : nat)
  : M value :=
  let urlsString := getNodeParameter context (js "urls") itemIndex in
  let rawOptions := getNodeParameter context (js "contentsOptions") itemIndex in
  options <- lift (parse ContentsOptionsSchema rawOptions) ;;
  urls <- match urlsString with
          | VStr s => ret (parseUrls s)
          | _ => throw (Error (splitTypeError urlsString))
          end ;;
  if length urls =? 0
  then throw (NodeOperationError (js "At least one URL is required") itemIndex)
  else
    rawResponse <- httpRequest context (js "youDotComApi")
                     (contentsRequest urls options) ;;
    response <- lift (parse ContentsResponseSchema rawResponse) ;;
    ret response.

(** The [try] block of one iteration of [execute]: the records to push. *)
Definition tryItem (context : IExecuteFunctions) (i : nat)
  : M (list INodeExecutionData) :=
  let operation := getNodeParameter context (js "operation") i in
  if isString operation (js "search") then
    response <- executeSearch context i ;;
    ret (constructExecutionMetaData context
           (returnJsonArray context response) i)
  else if isString operation (js "contents") then
    response <- executeContents context i ;;
    ret (constructExecutionMetaData context
           (returnJsonArray context response) i)
  else ret [].

(** The record pushed for a failed item when the host continues. *)
Definition errorRecord (error : Thrown) (i : nat) : INodeExecutionData :=
  match error with
  | ZodError issues =>
      {| json := VObj [ (js "error", VStr (errorMessage issues));
                        (js "validationErrors",
                          VArr (serializedIssues issues)) ];
         pairedItem := i |}
  | _ =>
      {| json := VObj [ (js "error", VStr (messageOf error)) ];
         pairedItem := i |}
  end.

(** The [NodeApiError] thrown for a failed item when the host does not
    continue. *)
Definition apiError (error : Thrown) (i : nat) : NodeApiError :=
  match error with
  | ZodError issues =>
      {| errorResponse :=
           inl (VObj [ (js "message", VStr (errorMessage issues));
                       (js "issues", VArr (serializedIssues issues)) ]);
         itemIndex := i |}
  | _ => {| errorResponse := inr error; itemIndex := i |}
  end.

(** The [for] loop of [execute], from item [i] with [remaining] items to
    go. *)
Fixpoint executeLoop (context : IExecuteFunctions) (remaining i : nat)
  (returnData : list INodeExecutionData) (log : Log) : Completion * Log :=
  match remaining with
  | 0 => (Returned returnData, log)
  | S remaining' =>
      match tryItem context i log with
      | (inr executionData, log') =>
          executeLoop context remaining' (S i) (returnData ++ executionData) log'
      | (inl error, log') =>
          if continueOnFail context
          then executeLoop context remaining' (S i)
                 (returnData ++ [errorRecord error i]) log'
          else (Threw (apiError error i), log')
      end
  end.

Definition execute (context : IExecuteFunctions) : Completion * Log :=
  executeLoop context (length (getInputData context)) 0 [] [].

(* ------------------------------------------------------------------ *)
(** *** Predicates used in the statements *)

(** A well-formed path segment: an index, or a property name that is not
    the empty string. *)
Definition segOk (seg : PathSeg) : Prop :=
  match seg with
  | Key k => k <> []
  | Index _ => True
  end.

(** Every issue lies at or below the path [p]. *)
Definition issuesUnder (p : list PathSeg) (iss : list ZodIssue) : Prop :=
  Forall (fun e => exists rest, path e = p ++ rest /\ Forall segOk rest) iss.

(** A schema accepts exactly when it raises no issue, and raises its
    issues at or below the path it is given. *)
Definition sound (s : ZodType) : Prop :=
  forall p data,
    (status (s p data) = valid <-> issues (s p data) = [])
    /\ issuesUnder p (issues (s p data)).

(** A schema that returns an accepted input as it is. *)
Definition echo (s : ZodType) : Prop :=
  forall p data, status (s p data) = valid -> output (s p data) = data.

(** What the loop of [writePair] leaves under the key [k], starting from
    [acc]. *)
Definition readPair (k : jsstring) (acc : value)
  (pr : jsstring * ParseReturn * bool) : value :=
  if eqb k (fst (fst pr))
     && (negb (isUndefined (output (snd (fst pr)))) || snd pr)
  then output (snd (fst pr)) else acc.

(** A thrown validation error carries at least one issue, with paths of
    well-formed segments. *)
Definition okThrown (e : Thrown) : Prop :=
  forall iss, e = ZodError iss ->
    iss <> [] /\ Forall (fun i => Forall segOk (path i)) iss.

Definition safe {A : Type} (m : M A) : Prop :=
  forall log e log', m log = (inl e, log') -> okThrown e.

(** The keys are pairwise different. *)
Fixpoint distinct (keys : list jsstring) : bool :=
  match keys with
  | [] => true
  | k :: rest => negb (existsb (eqb k) rest) && distinct rest
  end.

(** A field the caller set: its value is not [undefined]. *)
Definition present (v : value) : bool := negb (isUndefined v).

Definition isEmptyString (v : value) : bool :=
  match v with
  | VStr [] => true
  | _ => false
  end.

(** The optional fields of the search options, in the order in which
    [#executeSearch] copies them. *)
Definition optionalKeys : list jsstring :=
  [ js "count"; js "country"; js "freshness"; js "language"; js "livecrawl";
    js "livecrawl_formats"; js "offset"; js "safesearch" ].

(** An array with at least one element. *)
Definition nonEmptyArray (v : value) : bool :=
  match v with
  | VArr (_ :: _) => true
  | _ => false
  end.

(** The value of an optional string field, and the entry it contributes
    to a query string. *)
Definition field (o : option jsstring) : value :=
  match o with
  | Some s => VStr s
  | None => VUndefined
  end.

Definition entry (k : jsstring) (o : option jsstring)
  : list (jsstring * value) :=
  match o with
  | Some s => [(k, VStr s)]
  | None => []
  end.

(** The options violate the schema of a record with the given fields:
    the value is not a record, or some declared field is rejected by its
    rule. *)
Definition violates (shape : list (jsstring * ZodType)) (raw : value) : Prop :=
  match raw with
  | VObj fields =>
      exists k s, In (k, s) shape /\ status (s [Key k] (get k fields)) <> valid
  | _ => True
  end.

(* ------------------------------------------------------------------ *)
(** *** Further predicates and tables *)

(** An optional integer between [lo] and [hi], both included. *)
Definition optionalInteger (lo hi : Z) (v : value) : Prop :=
  v = VUndefined
  \/ exists q z, v = VNum (Finite q) /\ Qeq q (inject_Z z) /\ (lo <= z <= hi)%Z.

Definition optionalString (v : value) : Prop :=
  v = VUndefined \/ exists s, v = VStr s.

(** An optional string that is one of [values]. *)
Definition optionalOneOf (values : list jsstring) (v : value) : Prop :=
  v = VUndefined \/ exists s, v = VStr s /\ In s values.

(** An optional array of strings that are each one of [values]. *)
Definition optionalListOf (values : list jsstring) (v : value) : Prop :=
  v = VUndefined
  \/ exists items,
       v = VArr items
       /\ Forall (fun item => exists s, item = VStr s /\ In s values) items.

(** The values the configuration form of the node offers for the
    enumerated search options ([description.properties], the [options] of
    [freshness], [livecrawl], [livecrawl_formats] and [safesearch]). *)
Definition enumeratedChoices : list (jsstring * list jsstring) :=
  [ (js "freshness", [js ""; js "day"; js "month"; js "week"; js "year"]);
    (js "livecrawl", [js ""; js "web"; js "news"; js "all"]);
    (js "livecrawl_formats", [js "html"; js "markdown"]);
    (js "safesearch", [js "off"; js "moderate"; js "strict"]) ].

(** The same host with the continuation flag set to [b]. *)
Definition withContinue (b : bool) (context : IExecuteFunctions)
  : IExecuteFunctions :=
  {| getInputData := getInputData context;
     getNodeParameter := getNodeParameter context;
     continueOnFail := b;
     httpRequestWithAuthentication := httpRequestWithAuthentication context;
     returnJsonArray := returnJsonArray context;
     constructExecutionMetaData := constructExecutionMetaData context |}.

(** A request as the search operation issues it. *)
Definition searchShaped (r : IHttpRequestOptions) : Prop :=
  method r = GET
  /\ url r = js "https://ydc-index.io/v1/search"
  /\ body r = None
  /\ exists params, qs r = Some params /\ has (js "query") params = true.

(** A request as the contents operation issues it: the URL list is not
    empty and holds no empty URL. *)
Definition contentsShaped (r : IHttpRequestOptions) : Prop :=
  method r = POST
  /\ url r = js "https://ydc-index.io/v1/contents"
  /\ qs r = None
  /\ exists payload urls,
       body r = Some payload
       /\ get (js "urls") payload = VArr (map VStr urls)
       /\ urls <> []
       /\ Forall (fun u => u <> []) urls.

Definition nodeRequest (r : IHttpRequestOptions) : Prop :=
  headers r = [(js "User-Agent", USER_AGENT)]
  /\ jsonFlag r = true
  /\ (searchShaped r \/ contentsShaped r).

(** A comma or a white-space code unit. *)
Definition isSeparator (c : N) : bool := N.eqb c comma || isWhiteSpace c.




(* ================================================================== *)
(** ** Strings: splitting, joining and trimming *)

Lemma eqb_eq (a b : jsstring) : eqb a b = true <-> a = b.
Proof.
  revert b; induction a as [|x a IH]; intros [|y b]; simpl; split;
    try discriminate; try reflexivity.
  - intros H. apply andb_true_iff in H as [Hx Hab].
    apply N.eqb_eq in Hx. apply IH in Hab. now subst.
  - intros H. injection H as -> ->. rewrite N.eqb_refl. now apply IH.
Qed.

Lemma eqb_refl (a : jsstring) : eqb a a = true.
Proof. now apply eqb_eq. Qed.

Lemma eqb_neq (a b : jsstring) : eqb a b = false <-> a <> b.
Proof.
  split.
  - intros H E. apply eqb_eq in E. congruence.
  - intros H. destruct (eqb a b) eqn:E; [|reflexivity].
    apply eqb_eq in E. contradiction.
Qed.

Lemma eqb_sym (a b : jsstring) : eqb a b = eqb b a.
Proof.
  destruct (eqb a b) eqn:E.
  - apply eqb_eq in E. subst. symmetry. apply eqb_refl.
  - symmetry. apply eqb_neq. apply eqb_neq in E. congruence.
Qed.

Lemma split_not_nil (sep : N) (s : jsstring) : split sep s <> [].
Proof.
  destruct s as [|c rest]; simpl; [discriminate|].
  destruct (N.eqb c sep); [discriminate|].
  destruct (split sep rest); discriminate.
Qed.

(** Joining the pieces with the separator gives the string back. *)
Lemma split_join (sep : N) (s : jsstring) : join [sep] (split sep s) = s.
Proof.
  induction s as [|c rest IH]; [reflexivity|].
  simpl split. destruct (N.eqb c sep) eqn:E.
  - apply N.eqb_eq in E. subst c.
    pose proof (split_not_nil sep rest) as Hne.
    destruct (split sep rest) as [|p ps]; [contradiction|].
    change (join [sep] ([] :: p :: ps)) with ([] ++ [sep] ++ join [sep] (p :: ps)).
    rewrite IH. reflexivity.
  - pose proof (split_not_nil sep rest) as Hne.
    destruct (split sep rest) as [|p ps]; [contradiction|].
    destruct ps as [|p' ps].
    + simpl in *. now rewrite IH.
    + change (join [sep] ((c :: p) :: p' :: ps))
        with (c :: (p ++ [sep] ++ join [sep] (p' :: ps))).
      change (join [sep] (p :: p' :: ps))
        with (p ++ [sep] ++ join [sep] (p' :: ps)) in IH.
      now rewrite IH.
Qed.

(** No piece contains the separator. *)
Lemma split_no_sep (sep : N) (s : jsstring) :
  Forall (fun piece => ~ In sep piece) (split sep s).
Proof.
  induction s as [|c rest IH]; simpl.
  - constructor; [intros []|constructor].
  - destruct (N.eqb c sep) eqn:E.
    + constructor; [intros []|exact IH].
    + apply N.eqb_neq in E.
      destruct (split sep rest) as [|p ps].
      * constructor; [|constructor]. intros [H|[]]. congruence.
      * inversion IH as [|? ? Hp Hps]; subst.
        constructor; [|exact Hps]. intros [H|H]; [congruence|contradiction].
Qed.

Lemma trimStart_split (s : jsstring) :
  exists l, s = l ++ trimStart s /\ isBlank l = true.
Proof.
  induction s as [|c rest [l [Hl Hb]]]; simpl.
  - exists []. split; reflexivity.
  - destruct (isWhiteSpace c) eqn:E.
    + exists (c :: l). split.
      * simpl. now rewrite <- Hl.
      * simpl. now rewrite E, Hb.
    + exists []. split; reflexivity.
Qed.

Lemma trimStart_clean (s : jsstring) : startsClean (trimStart s) = true.
Proof.
  induction s as [|c rest IH]; simpl; [reflexivity|].
  destruct (isWhiteSpace c) eqn:E; [exact IH|]. simpl. now rewrite E.
Qed.

Lemma isBlank_rev (s : jsstring) : isBlank (rev s) = isBlank s.
Proof.
  unfold isBlank. induction s as [|c rest IH]; simpl; [reflexivity|].
  rewrite forallb_app, IH. simpl. rewrite andb_true_r. apply andb_comm.
Qed.

Lemma trimEnd_split (s : jsstring) :
  exists r, s = trimEnd s ++ r /\ isBlank r = true.
Proof.
  destruct (trimStart_split (rev s)) as [l [Hl Hb]].
  exists (rev l). split.
  - unfold trimEnd. rewrite <- rev_app_distr, <- Hl. now rewrite rev_involutive.
  - now rewrite isBlank_rev.
Qed.

Lemma trimEnd_clean (s : jsstring) : endsClean (trimEnd s) = true.
Proof.
  unfold endsClean, trimEnd. rewrite rev_involutive. apply trimStart_clean.
Qed.

Lemma trimEnd_keeps_start (s : jsstring) :
  startsClean s = true -> startsClean (trimEnd s) = true.
Proof.
  intros H. destruct (trimEnd_split s) as [r [Hr _]].
  destruct (trimEnd s) as [|c t]; [reflexivity|].
  rewrite Hr in H. exact H.
Qed.

(** [trim] removes a blank prefix and a blank suffix and leaves a string
    that neither begins nor ends with white space. *)
Lemma trim_split (s : jsstring) :
  exists l r, s = l ++ trim s ++ r /\ isBlank l = true /\ isBlank r = true.
Proof.
  destruct (trimStart_split s) as [l [Hl Hbl]].
  destruct (trimEnd_split (trimStart s)) as [r [Hr Hbr]].
  exists l, r. unfold trim. now rewrite <- Hr.
Qed.

Lemma trim_clean (s : jsstring) :
  startsClean (trim s) = true /\ endsClean (trim s) = true.
Proof.
  unfold trim. split.
  - apply trimEnd_keeps_start, trimStart_clean.
  - apply trimEnd_clean.
Qed.

Lemma trim_incl (s : jsstring) (c : N) : In c (trim s) -> In c s.
Proof.
  destruct (trim_split s) as [l [r [H _]]]. intros Hc.
  rewrite H. apply in_or_app. right. apply in_or_app. now left.
Qed.

(** C4. The URL list of the contents operation is the comma-separated
    pieces of the input (joining them with commas gives the input back and
    no piece holds a comma), each stripped of its surrounding white space
    (a blank prefix and a blank suffix are removed and what is left neither
    begins nor ends with white space), without the pieces that are empty
    after trimming; the input ["https://a.com, https://b.com ,,  "] yields
    exactly the two URLs. *)
Theorem parseUrls_split_trim_filter (urlsString : jsstring) :
  let pieces := split comma urlsString in
  join [comma] pieces = urlsString
  /\ Forall (fun piece => ~ In comma piece) pieces
  /\ (forall piece, exists l r,
        piece = l ++ trim piece ++ r /\ isBlank l = true /\ isBlank r = true
        /\ startsClean (trim piece) = true /\ endsClean (trim piece) = true)
  /\ parseUrls urlsString
     = filter (fun url => negb (eqb url [])) (map trim pieces)
  /\ Forall (fun url => url <> [] /\ ~ In comma url
                        /\ startsClean url = true /\ endsClean url = true)
            (parseUrls urlsString)
  /\ parseUrls (js "https://a.com, https://b.com ,,  ")
     = [js "https://a.com"; js "https://b.com"].
Proof.
  cbv zeta. split; [apply split_join|]. split; [apply split_no_sep|].
  split.
  { intros piece. destruct (trim_split piece) as [l [r [H [Hl Hr]]]].
    exists l, r. pose proof (trim_clean piece) as [Hs He]. repeat split; assumption. }
  split.
  { unfold parseUrls. apply filter_ext. intros [|c u]; reflexivity. }
  split; [|reflexivity].
  unfold parseUrls. apply Forall_forall. intros url Hin.
  apply filter_In in Hin as [Hin Hlen].
  apply in_map_iff in Hin as [piece [<- Hpiece]].
  pose proof (trim_clean piece) as [Hs He].
  repeat split; try assumption.
  - intros E. rewrite E in Hlen. discriminate.
  - intros Hc. apply trim_incl in Hc.
    pose proof (split_no_sep comma urlsString) as Hall.
    rewrite Forall_forall in Hall. exact (Hall piece Hpiece Hc).
Qed.

(* ================================================================== *)
(** ** Objects *)

Lemma get_set (k k' : jsstring) (v : value) (obj : list (jsstring * value)) :
  get k (set k' v obj) = if eqb k k' then v else get k obj.
Proof.
  induction obj as [|[k'' v''] rest IH]; simpl; [reflexivity|].
  destruct (eqb k' k'') eqn:E'; simpl.
  - apply eqb_eq in E'. subst k''. now destruct (eqb k k').
  - rewrite IH. destruct (eqb k k'') eqn:E''; [|reflexivity].
    apply eqb_eq in E''. subst k''. now rewrite eqb_sym, E'.
Qed.

Lemma get_has_false (k : jsstring) (obj : list (jsstring * value)) :
  existsb (eqb k) (map fst obj) = false -> get k obj = VUndefined.
Proof.
  induction obj as [|[k' v'] rest IH]; simpl; [reflexivity|].
  intros H. apply orb_false_iff in H as [-> H]. now apply IH.
Qed.

Lemma get_writePairs (k : jsstring)
  (pairs : list (jsstring * ParseReturn * bool)) (obj : list (jsstring * value)) :
  get k (fold_left writePair pairs obj) = fold_left (readPair k) pairs (get k obj).
Proof.
  revert obj. induction pairs as [|[[k' r] a] pairs IH]; intros obj; simpl;
    [reflexivity|].
  rewrite IH. f_equal. unfold readPair; simpl.
  destruct (negb (isUndefined (output r)) || a); simpl.
  - rewrite get_set, andb_true_r. reflexivity.
  - now rewrite andb_false_r.
Qed.

Lemma readPair_other (k : jsstring) (acc : value)
  (pairs : list (jsstring * ParseReturn * bool)) :
  existsb (eqb k) (map (fun pr => fst (fst pr)) pairs) = false ->
  fold_left (readPair k) pairs acc = acc.
Proof.
  revert acc. induction pairs as [|pr pairs IH]; intros acc; simpl;
    [reflexivity|].
  intros H. apply orb_false_iff in H as [Hk H].
  rewrite IH by exact H. unfold readPair. now rewrite Hk.
Qed.

(* ================================================================== *)
(** ** The validation engine accepts exactly when it raises no issue *)

Lemma existsb_false_iff {A : Type} (f : A -> bool) (l : list A) :
  existsb f l = false <-> Forall (fun x => f x = false) l.
Proof.
  induction l as [|x l IH]; simpl.
  - split; [constructor|reflexivity].
  - rewrite orb_false_iff, IH. split.
    + intros [H1 H2]. now constructor.
    + intros H. inversion H; subst. now split.
Qed.

Lemma flat_map_nil_iff {A B : Type} (f : A -> list B) (l : list A) :
  flat_map f l = [] <-> Forall (fun x => f x = []) l.
Proof.
  induction l as [|x l IH]; simpl.
  - split; [constructor|reflexivity].
  - split.
    + intros H. apply app_eq_nil in H as [H1 H2]. constructor; [exact H1|].
      now apply IH.
    + intros H. inversion H as [|? ? H1 H2]; subst. rewrite H1. simpl.
      now apply IH.
Qed.

Lemma status_valid_iff (r : ParseReturn) :
  status r = valid <-> isAborted r = false /\ isDirty r = false.
Proof.
  unfold isAborted, isDirty. destruct (status r); split; try tauto;
    try discriminate; intros [? ?]; discriminate.
Qed.

Lemma mergeObjectSync_issues (pairs : list (jsstring * ParseReturn * bool)) :
  issues (mergeObjectSync pairs) = flat_map (fun pr => issues (snd (fst pr))) pairs.
Proof.
  unfold mergeObjectSync.
  destruct (existsb (fun pr => isAborted (snd (fst pr))) pairs); reflexivity.
Qed.

Lemma mergeObjectSync_valid (pairs : list (jsstring * ParseReturn * bool)) :
  status (mergeObjectSync pairs) = valid
  <-> Forall (fun pr => status (snd (fst pr)) = valid) pairs.
Proof.
  unfold mergeObjectSync.
  destruct (existsb (fun pr => isAborted (snd (fst pr))) pairs) eqn:Ea;
    [|destruct (existsb (fun pr => isDirty (snd (fst pr))) pairs) eqn:Ed];
    simpl.
  - split; [discriminate|]. intros H. exfalso.
    apply existsb_exists in Ea as [pr [Hin Hab]].
    rewrite Forall_forall in H. apply H in Hin.
    apply status_valid_iff in Hin as [Hin _]. congruence.
  - split; [discriminate|]. intros H. exfalso.
    apply existsb_exists in Ed as [pr [Hin Hd]].
    rewrite Forall_forall in H. apply H in Hin.
    apply status_valid_iff in Hin as [_ Hin]. congruence.
  - split; [intros _|reflexivity].
    apply existsb_false_iff in Ea. apply existsb_false_iff in Ed.
    rewrite Forall_forall in *. intros pr Hin.
    apply status_valid_iff. split; [now apply Ea|now apply Ed].
Qed.

Lemma mergeObjectSync_output (pairs : list (jsstring * ParseReturn * bool)) :
  status (mergeObjectSync pairs) = valid ->
  output (mergeObjectSync pairs) = VObj (fold_left writePair pairs []).
Proof.
  unfold mergeObjectSync.
  destruct (existsb (fun pr => isAborted (snd (fst pr))) pairs);
    [discriminate|]. intros _. reflexivity.
Qed.

Lemma mergeArray_issues (results : list ParseReturn) :
  issues (mergeArray results) = flat_map issues results.
Proof.
  unfold mergeArray. destruct (existsb isAborted results); reflexivity.
Qed.

Lemma mergeArray_valid (results : list ParseReturn) :
  status (mergeArray results) = valid
  <-> Forall (fun r => status r = valid) results.
Proof.
  unfold mergeArray.
  destruct (existsb isAborted results) eqn:Ea;
    [|destruct (existsb isDirty results) eqn:Ed]; simpl.
  - split; [discriminate|]. intros H. exfalso.
    apply existsb_exists in Ea as [r [Hin Hab]].
    rewrite Forall_forall in H. apply H in Hin.
    apply status_valid_iff in Hin as [Hin _]. congruence.
  - split; [discriminate|]. intros H. exfalso.
    apply existsb_exists in Ed as [r [Hin Hd]].
    rewrite Forall_forall in H. apply H in Hin.
    apply status_valid_iff in Hin as [_ Hin]. congruence.
  - split; [intros _|reflexivity].
    apply existsb_false_iff in Ea. apply existsb_false_iff in Ed.
    rewrite Forall_forall in *. intros r Hin.
    apply status_valid_iff. split; [now apply Ea|now apply Ed].
Qed.

Lemma mergeArray_output (results : list ParseReturn) :
  status (mergeArray results) = valid ->
  output (mergeArray results) = VArr (map output results).
Proof.
  unfold mergeArray. destruct (existsb isAborted results); [discriminate|].
  intros _. reflexivity.
Qed.

Lemma issuesUnder_nil (p : list PathSeg) : issuesUnder p [].
Proof. constructor. Qed.

Lemma issuesUnder_here (p : list PathSeg) (c : ZodIssueCode) (data : value) :
  issuesUnder p [addIssue c p data].
Proof.
  constructor; [|constructor]. exists []. simpl. rewrite app_nil_r.
  split; [reflexivity|constructor].
Qed.

Lemma issuesUnder_app (p : list PathSeg) (a b : list ZodIssue) :
  issuesUnder p a -> issuesUnder p b -> issuesUnder p (a ++ b).
Proof. unfold issuesUnder. intros. apply Forall_app. now split. Qed.

Lemma issuesUnder_up (p : list PathSeg) (seg : PathSeg) (iss : list ZodIssue) :
  segOk seg -> issuesUnder (p ++ [seg]) iss -> issuesUnder p iss.
Proof.
  unfold issuesUnder. intros Hseg H. eapply Forall_impl; [|exact H].
  intros e [rest [Hp Hrest]]. exists (seg :: rest). split.
  - rewrite Hp, <- app_assoc. reflexivity.
  - now constructor.
Qed.

Lemma issuesUnder_flat_map {A : Type} (p : list PathSeg)
  (f : A -> list ZodIssue) (l : list A) :
  Forall (fun x => issuesUnder p (f x)) l -> issuesUnder p (flat_map f l).
Proof.
  induction 1; simpl; [constructor|]. now apply issuesUnder_app.
Qed.


Lemma mergeObjectSync_sound (p : list PathSeg)
  (pairs : list (jsstring * ParseReturn * bool)) :
  Forall (fun pr => (status (snd (fst pr)) = valid <-> issues (snd (fst pr)) = [])
                    /\ issuesUnder p (issues (snd (fst pr)))) pairs ->
  (status (mergeObjectSync pairs) = valid <-> issues (mergeObjectSync pairs) = [])
  /\ issuesUnder p (issues (mergeObjectSync pairs)).
Proof.
  intros H. rewrite mergeObjectSync_valid, mergeObjectSync_issues, flat_map_nil_iff.
  split.
  - rewrite !Forall_forall in *. split; intros H' pr Hin;
      apply (proj1 (H pr Hin)); now apply H'.
  - apply issuesUnder_flat_map. eapply Forall_impl; [|exact H].
    now intros pr [_ Hu].
Qed.

Lemma mergeArray_sound (p : list PathSeg) (results : list ParseReturn) :
  Forall (fun r => (status r = valid <-> issues r = [])
                   /\ issuesUnder p (issues r)) results ->
  (status (mergeArray results) = valid <-> issues (mergeArray results) = [])
  /\ issuesUnder p (issues (mergeArray results)).
Proof.
  intros H. rewrite mergeArray_valid, mergeArray_issues, flat_map_nil_iff.
  split.
  - rewrite !Forall_forall in *. split; intros H' r Hin;
      apply (proj1 (H r Hin)); now apply H'.
  - apply issuesUnder_flat_map. eapply Forall_impl; [|exact H].
    now intros r [_ Hu].
Qed.

Lemma Forall_mapi_from {A B : Type} (P : B -> Prop) (f : A -> nat -> B)
  (l : list A) (i : nat) :
  (forall x j, P (f x j)) -> Forall P (mapi_from i f l).
Proof.
  intros H. revert i. induction l as [|x l IH]; intros i; simpl; constructor;
    [apply H|apply IH].
Qed.

Lemma sound_z_string (url : bool) : sound (z_string url).
Proof.
  intros p data. unfold z_string.
  destruct data; simpl;
    try (split; [split; discriminate|apply issuesUnder_here]).
  destruct (url && negb (isURL s)); simpl.
  - split; [split; discriminate|apply issuesUnder_here].
  - split; [tauto|apply issuesUnder_nil].
Qed.

Lemma sound_z_number (checks : list NumberCheck) : sound (z_number checks).
Proof.
  intros p data. unfold z_number.
  destruct data as [| | |n| | |]; simpl;
    try (split; [split; discriminate|apply issuesUnder_here]).
  assert (Hu : forall n', issuesUnder p
            (flat_map (fun c => match failedCheck c n' with
                                | Some c' => [addIssue c' p (VNum n)]
                                | None => []
                                end) checks)).
  { intros n'. apply issuesUnder_flat_map. apply Forall_forall. intros c _.
    destruct (failedCheck c n'); [apply issuesUnder_here|apply issuesUnder_nil]. }
  destruct n as [q| |neg]; simpl.
  - split; [|apply Hu]. destruct (flat_map _ checks); split;
      try discriminate; reflexivity.
  - split; [split; discriminate|apply issuesUnder_here].
  - split; [|apply Hu]. destruct (flat_map _ checks); split;
      try discriminate; reflexivity.
Qed.

Lemma sound_z_enum (values : list jsstring) : sound (z_enum values).
Proof.
  intros p data. unfold z_enum.
  destruct data; simpl;
    try (split; [split; discriminate|apply issuesUnder_here]).
  destruct (existsb (eqb s) values); simpl.
  - split; [tauto|apply issuesUnder_nil].
  - split; [split; discriminate|apply issuesUnder_here].
Qed.

Lemma sound_z_unknown : sound z_unknown.
Proof. intros p data. simpl. split; [tauto|apply issuesUnder_nil]. Qed.

Lemma sound_optional (inner : ZodType) : sound inner -> sound (optional inner).
Proof.
  intros H p data. unfold optional. destruct data; try apply H.
  simpl. split; [tauto|apply issuesUnder_nil].
Qed.

Lemma sound_z_array (element : ZodType) : sound element -> sound (z_array element).
Proof.
  intros H p data. unfold z_array.
  destruct data; simpl;
    try (split; [split; discriminate|apply issuesUnder_here]).
  apply mergeArray_sound. unfold mapi. apply Forall_mapi_from.
  intros item j. destruct (H (p ++ [Index j]) item) as [H1 H2].
  split; [exact H1|]. eapply issuesUnder_up; [|exact H2]. exact I.
Qed.

Lemma sound_z_object (shape : list (jsstring * ZodType))
  (unknownKeys : UnknownKeys) :
  Forall (fun ks => fst ks <> [] /\ sound (snd ks)) shape ->
  sound (z_object shape unknownKeys).
Proof.
  intros H p data. unfold z_object.
  destruct data; simpl;
    try (split; [split; discriminate|apply issuesUnder_here]).
  apply mergeObjectSync_sound. apply Forall_app. split.
  - apply Forall_map. eapply Forall_impl; [|exact H].
    intros [k s] [Hk Hs]. simpl in *.
    destruct (Hs (p ++ [Key k]) (get k fields)) as [H1 H2].
    split; [exact H1|]. eapply issuesUnder_up; [|exact H2]. exact Hk.
  - destruct unknownKeys; [constructor|].
    apply Forall_map. apply Forall_forall. intros k _. simpl.
    split; [tauto|apply issuesUnder_nil].
Qed.

Lemma sound_z_record_unknown : sound (z_record z_unknown).
Proof.
  intros p data. unfold z_record.
  destruct data; simpl;
    try (split; [split; discriminate|apply issuesUnder_here]).
  apply mergeObjectSync_sound. apply Forall_map. apply Forall_forall.
  intros kv _. simpl. split; [tauto|apply issuesUnder_nil].
Qed.

Ltac sound_shape :=
  repeat first
    [ apply Forall_nil
    | apply Forall_cons; [split; [discriminate|]|]
    | apply sound_optional
    | apply sound_z_array
    | apply sound_z_string
    | apply sound_z_number
    | apply sound_z_enum
    | apply sound_z_unknown
    | apply sound_z_record_unknown
    | apply sound_z_object ].

Lemma sound_SearchOptionsSchema : sound SearchOptionsSchema.
Proof. unfold SearchOptionsSchema, SearchOptionsShape. sound_shape. Qed.

Lemma sound_ContentsOptionsSchema : sound ContentsOptionsSchema.
Proof. unfold ContentsOptionsSchema, ContentsOptionsShape. sound_shape. Qed.

Lemma sound_SearchResponseSchema : sound SearchResponseSchema.
Proof.
  unfold SearchResponseSchema, SearchResponseShape, MetadataSchema,
    WebResultSchema, NewsResultSchema. sound_shape.
Qed.

Lemma sound_ContentsResponseSchema : sound ContentsResponseSchema.
Proof. unfold ContentsResponseSchema, ContentsResultShape. sound_shape. Qed.

(** A failed [parse] of a sound schema throws a [ZodError] that carries
    at least one issue; every issue path is made of well-formed segments. *)
Lemma parse_failure (s : ZodType) (data : value) (e : Thrown) :
  sound s -> parse s data = inl e ->
  exists iss, e = ZodError iss /\ iss = issues (s [] data) /\ iss <> []
              /\ Forall (fun i => Forall segOk (path i)) iss.
Proof.
  intros Hs. unfold parse. destruct (Hs [] data) as [Hv Hu].
  assert (Hpaths : Forall (fun i => Forall segOk (path i)) (issues (s [] data))).
  { eapply Forall_impl; [|exact Hu]. intros i [rest [-> Hrest]]. exact Hrest. }
  destruct (status (s [] data)) eqn:Est; [discriminate| |].
  - destruct (issues (s [] data)) as [|i iss] eqn:Ei.
    + assert (dirty = valid) by now apply Hv. discriminate.
    + intros H. injection H as <-. exists (i :: iss).
      repeat split; try assumption; discriminate.
  - destruct (issues (s [] data)) as [|i iss] eqn:Ei.
    + assert (aborted = valid) by now apply Hv. discriminate.
    + intros H. injection H as <-. exists (i :: iss).
      repeat split; try assumption; discriminate.
Qed.

Lemma parse_success (s : ZodType) (data out : value) :
  parse s data = inr out <-> status (s [] data) = valid /\ out = output (s [] data).
Proof.
  unfold parse. destruct (status (s [] data)).
  - split; [intros H; injection H as <-; now split|now intros [_ ->]].
  - split; [destruct (issues (s [] data)); discriminate|intros [? _]; discriminate].
  - split; [destruct (issues (s [] data)); discriminate|intros [? _]; discriminate].
Qed.


(* ================================================================== *)
(** ** The result of validating an object *)

Lemma readPair_unique (k : jsstring) (r : ParseReturn) (a : bool)
  (l1 l2 : list (jsstring * ParseReturn * bool)) :
  existsb (eqb k) (map (fun pr => fst (fst pr)) l1) = false ->
  existsb (eqb k) (map (fun pr => fst (fst pr)) l2) = false ->
  fold_left (readPair k) (l1 ++ (k, r, a) :: l2) VUndefined = output r.
Proof.
  intros H1 H2. rewrite fold_left_app. simpl.
  rewrite (readPair_other k _ l1 H1), (readPair_other k _ l2 H2).
  unfold readPair. simpl. rewrite eqb_refl. simpl.
  destruct (output r); simpl; try reflexivity. now destruct a.
Qed.

Lemma readPair_extras (k : jsstring) (fields : list (jsstring * value))
  (keys : list jsstring) (acc : value) :
  acc = VUndefined \/ acc = get k fields ->
  fold_left (readPair k) (map (fun k' => (k', OK (get k' fields), false)) keys) acc
  = if existsb (eqb k) keys then get k fields else acc.
Proof.
  revert acc. induction keys as [|k' keys IH]; intros acc Hacc; simpl;
    [reflexivity|].
  unfold readPair at 2. simpl. destruct (eqb k k') eqn:E; simpl.
  - apply eqb_eq in E. subst k'. rewrite orb_false_r.
    destruct (isUndefined (get k fields)) eqn:Eu; simpl.
    + rewrite IH by exact Hacc. destruct (existsb (eqb k) keys); [reflexivity|].
      destruct Hacc as [-> | ->]; [|reflexivity].
      destruct (get k fields); try discriminate; reflexivity.
    + rewrite IH by now right. now destruct (existsb (eqb k) keys).
  - now apply IH.
Qed.

Lemma existsb_filter_unknown (shape : list (jsstring * ZodType)) (k : jsstring)
  (keys : list jsstring) :
  isKnown shape k = false ->
  existsb (eqb k) (filter (fun k' => negb (isKnown shape k')) keys)
  = existsb (eqb k) keys.
Proof.
  intros Hk. induction keys as [|k' keys IH]; simpl; [reflexivity|].
  destruct (isKnown shape k') eqn:E; simpl.
  - rewrite IH. destruct (eqb k k') eqn:Ek; [|reflexivity].
    apply eqb_eq in Ek. subst k'. congruence.
  - now rewrite IH.
Qed.

Lemma existsb_filter_known (shape : list (jsstring * ZodType)) (k : jsstring)
  (keys : list jsstring) :
  isKnown shape k = true ->
  existsb (eqb k) (filter (fun k' => negb (isKnown shape k')) keys) = false.
Proof.
  intros Hk. induction keys as [|k' keys IH]; simpl; [reflexivity|].
  destruct (isKnown shape k') eqn:E; simpl; [exact IH|].
  rewrite IH, orb_false_r. apply eqb_neq. intros ->. congruence.
Qed.

Lemma distinct_split (keys1 keys2 : list jsstring) (k : jsstring) :
  distinct (keys1 ++ k :: keys2) = true ->
  existsb (eqb k) keys1 = false /\ existsb (eqb k) keys2 = false.
Proof.
  induction keys1 as [|k' keys1 IH]; simpl; intros H.
  - apply andb_true_iff in H as [H _]. apply negb_true_iff in H. now split.
  - apply andb_true_iff in H as [H1 H2]. apply negb_true_iff in H1.
    destruct (IH H2) as [Ha Hb]. split; [|exact Hb].
    rewrite Ha, orb_false_r. rewrite existsb_app in H1. simpl in H1.
    apply orb_false_iff in H1 as [_ H1]. apply orb_false_iff in H1 as [H1 _].
    now rewrite eqb_sym.
Qed.

(** An object is accepted exactly when each declared field is. *)
Lemma z_object_valid_iff (shape : list (jsstring * ZodType))
  (unknownKeys : UnknownKeys) (p : list PathSeg)
  (fields : list (jsstring * value)) :
  status (z_object shape unknownKeys p (VObj fields)) = valid
  <-> Forall (fun ks => status (snd ks (p ++ [Key (fst ks)]) (get (fst ks) fields))
                        = valid) shape.
Proof.
  unfold z_object. rewrite mergeObjectSync_valid, Forall_app, Forall_map.
  split; [now intros [H _]|]. intros H. split; [exact H|].
  destruct unknownKeys; [constructor|]. rewrite Forall_map.
  apply Forall_forall. now intros k _.
Qed.

(** The accepted object holds, under each declared key, what the schema
    of that field returned. *)
Lemma z_object_get_known (shape : list (jsstring * ZodType))
  (unknownKeys : UnknownKeys) (p : list PathSeg)
  (fields : list (jsstring * value)) (k : jsstring) (s : ZodType) :
  status (z_object shape unknownKeys p (VObj fields)) = valid ->
  distinct (map fst shape) = true -> In (k, s) shape ->
  prop (output (z_object shape unknownKeys p (VObj fields))) k
  = output (s (p ++ [Key k]) (get k fields)).
Proof.
  intros Hv Hd Hin.
  unfold z_object in *. rewrite (mergeObjectSync_output _ Hv). simpl.
  rewrite get_writePairs. simpl.
  destruct (in_split _ _ Hin) as [s1 [s2 Hs]]. rewrite Hs in *.
  rewrite map_app in Hd. simpl in Hd. destruct (distinct_split _ _ _ Hd) as [H1 H2].
  rewrite map_app. simpl. rewrite <- app_assoc. simpl.
  apply readPair_unique.
  - rewrite map_map. exact H1.
  - rewrite map_app, existsb_app, map_map. simpl.
    apply orb_false_iff. split; [exact H2|].
    destruct unknownKeys; [reflexivity|]. rewrite map_map. simpl. rewrite map_id.
    apply existsb_filter_known. unfold isKnown. rewrite map_app, existsb_app.
    simpl. now rewrite eqb_refl, orb_true_r.
Qed.

(** Under a key that is not declared, the accepted object holds nothing
    when unknown keys are stripped and the input's value when they pass
    through. *)
Lemma z_object_get_unknown (shape : list (jsstring * ZodType))
  (unknownKeys : UnknownKeys) (p : list PathSeg)
  (fields : list (jsstring * value)) (k : jsstring) :
  status (z_object shape unknownKeys p (VObj fields)) = valid ->
  isKnown shape k = false ->
  prop (output (z_object shape unknownKeys p (VObj fields))) k
  = match unknownKeys with
    | strip => VUndefined
    | passthrough => get k fields
    end.
Proof.
  intros Hv Hk.
  unfold z_object in *. rewrite (mergeObjectSync_output _ Hv). simpl.
  rewrite get_writePairs, fold_left_app. simpl.
  rewrite (readPair_other k VUndefined (map _ shape))
    by (rewrite map_map; exact Hk).
  destruct unknownKeys; [reflexivity|].
  rewrite readPair_extras by now left.
  rewrite (existsb_filter_unknown shape k _ Hk).
  destruct (existsb (eqb k) (map fst fields)) eqn:E; [reflexivity|].
  symmetry. now apply get_has_false.
Qed.



Lemma flat_map_map {A B C : Type} (g : A -> B) (f : B -> list C) (l : list A) :
  flat_map f (map g l) = flat_map (fun x => f (g x)) l.
Proof. induction l as [|x l IH]; simpl; [reflexivity|now rewrite IH]. Qed.

Lemma options_shapes_sound (shape : list (jsstring * ZodType)) :
  shape = SearchOptionsShape \/ shape = ContentsOptionsShape ->
  Forall (fun ks => fst ks <> [] /\ sound (snd ks)) shape.
Proof.
  intros [-> | ->].
  - unfold SearchOptionsShape. sound_shape.
  - unfold ContentsOptionsShape. sound_shape.
Qed.




(* ================================================================== *)
(** ** Rendering of paths and of validation messages *)

Lemma revapp_not_nil (d acc : Decimal.uint) :
  d <> Decimal.Nil \/ acc <> Decimal.Nil -> Decimal.revapp d acc <> Decimal.Nil.
Proof.
  revert acc. induction d; intros acc H; simpl;
    try (apply IHd; right; discriminate).
  destruct H as [H|H]; [contradiction|exact H].
Qed.

Lemma to_little_uint_not_nil (n : nat) (acc : Decimal.uint) :
  acc <> Decimal.Nil -> Nat.to_little_uint n acc <> Decimal.Nil.
Proof.
  revert acc. induction n as [|n IH]; intros acc H; simpl; [exact H|].
  apply IH. destruct acc; simpl; discriminate.
Qed.

Lemma ofNat_not_nil (n : nat) : ofNat n <> [].
Proof.
  unfold ofNat, Nat.to_uint, Decimal.rev.
  assert (H : Decimal.revapp (Nat.to_little_uint n Decimal.zero) Decimal.Nil
              <> Decimal.Nil).
  { apply revapp_not_nil. left. apply to_little_uint_not_nil. discriminate. }
  destruct (Decimal.revapp (Nat.to_little_uint n Decimal.zero) Decimal.Nil);
    simpl; try discriminate. contradiction.
Qed.

(** The joined path is the empty string only for the empty path. *)
Lemma joinPath_nil_iff (p : list PathSeg) :
  Forall segOk p -> (joinPath p = [] <-> p = []).
Proof.
  intros Hok. split; [|now intros ->].
  destruct p as [|seg rest]; [reflexivity|]. intros H. exfalso.
  inversion Hok as [|? ? Hseg _]; subst.
  assert (Hs : segString seg <> []).
  { destruct seg; simpl; [exact Hseg|apply ofNat_not_nil]. }
  unfold joinPath in H. simpl in H. destruct (map segString rest).
  - contradiction.
  - apply app_eq_nil in H as [H _]. contradiction.
Qed.

Lemma orRoot_joinPath (p : list PathSeg) :
  Forall segOk p ->
  orRoot (joinPath p) = match p with [] => js "root" | _ => joinPath p end.
Proof.
  intros Hok. destruct p as [|seg rest]; [reflexivity|].
  destruct (joinPath (seg :: rest)) eqn:E; [|reflexivity].
  apply (joinPath_nil_iff _ Hok) in E. discriminate.
Qed.

Lemma length_mapi_from {A B : Type} (f : A -> nat -> B) (l : list A) (i : nat) :
  length (mapi_from i f l) = length l.
Proof.
  revert i. induction l as [|x l IH]; intros i; simpl; [reflexivity|].
  now rewrite IH.
Qed.

Lemma nth_error_mapi_from {A B : Type} (f : A -> nat -> B) (l : list A)
  (i k : nat) (x : A) :
  nth_error l k = Some x -> nth_error (mapi_from i f l) k = Some (f x (i + k)).
Proof.
  revert i k. induction l as [|y l IH]; intros i k; destruct k; simpl;
    try discriminate.
  - intros H. injection H as ->. now rewrite Nat.add_0_r.
  - intros H. rewrite (IH (S i) k H). f_equal. f_equal. lia.
Qed.

(* ================================================================== *)
(** ** What the [try] block can throw *)

Lemma safe_ret {A : Type} (a : A) : safe (ret a).
Proof. intros log e log' H. discriminate. Qed.

Lemma safe_throw {A : Type} (e : Thrown) : okThrown e -> safe (@throw A e).
Proof. intros He log e' log' H. injection H as <- _. exact He. Qed.

Lemma safe_bind {A B : Type} (m : M A) (k : A -> M B) :
  safe m -> (forall a, safe (k a)) -> safe (bind m k).
Proof.
  intros Hm Hk log e log'. unfold bind.
  destruct (m log) as [[e0|a] log0] eqn:E.
  - intros H. injection H as <- _. exact (Hm _ _ _ E).
  - apply Hk.
Qed.

Lemma safe_parse (s : ZodType) (data : value) :
  sound s -> safe (lift (parse s data)).
Proof.
  intros Hs log e log'. unfold lift. intros H.
  destruct (parse s data) as [e0|out] eqn:E; [|discriminate].
  injection H as <- _.
  destruct (parse_failure s data e0 Hs E) as [iss [-> [_ [Hne Hp]]]].
  intros iss' H'. injection H' as <-. now split.
Qed.

Lemma safe_httpRequest (context : IExecuteFunctions) (credentials : jsstring)
  (options : IHttpRequestOptions) : safe (httpRequest context credentials options).
Proof.
  intros log e log'. unfold httpRequest.
  destruct (httpRequestWithAuthentication context log credentials options);
    [|discriminate].
  intros H. injection H as <- _. intros iss H'. discriminate.
Qed.

Lemma safe_executeSearch (context : IExecuteFunctions) (i : nat) :
  safe (executeSearch context i).
Proof.
  unfold executeSearch.
  apply safe_bind; [apply safe_parse, sound_SearchOptionsSchema|intros options].
  apply safe_bind; [apply safe_httpRequest|intros rawResponse].
  apply safe_bind; [apply safe_parse, sound_SearchResponseSchema|intros response].
  apply safe_ret.
Qed.

Lemma safe_executeContents (context : IExecuteFunctions) (i : nat) :
  safe (executeContents context i).
Proof.
  unfold executeContents.
  apply safe_bind; [apply safe_parse, sound_ContentsOptionsSchema|intros options].
  apply safe_bind.
  { destruct (getNodeParameter context (js "urls") i);
      try (apply safe_throw; intros iss H; discriminate).
    apply safe_ret. }
  intros urls. destruct (length urls =? 0).
  - apply safe_throw. intros iss H. discriminate.
  - apply safe_bind; [apply safe_httpRequest|intros rawResponse].
    apply safe_bind; [apply safe_parse, sound_ContentsResponseSchema|intros response].
    apply safe_ret.
Qed.

Lemma safe_tryItem (context : IExecuteFunctions) (i : nat) :
  safe (tryItem context i).
Proof.
  unfold tryItem.
  destruct (isString _ (js "search")).
  - apply safe_bind; [apply safe_executeSearch|intros; apply safe_ret].
  - destruct (isString _ (js "contents")).
    + apply safe_bind; [apply safe_executeContents|intros; apply safe_ret].
    + apply safe_ret.
Qed.

(** C7. When validation fails for an item (the options or the response),
    the error message is the header line followed by one numbered line per
    violation, in the order of the violations: line [k] (from 1) is two
    spaces, [k], a full stop, the dot-joined field path (or [root] when the
    path is empty), a colon and the human-readable message.  This message
    is the one of the error record and of the thrown error. *)
Theorem validation_message_numbered_lines
  (context : IExecuteFunctions) (i : nat) (log log' : Log)
  (iss : list ZodIssue) :
  tryItem context i log = (inl (ZodError iss), log') ->
  let name := fun e : ZodIssue =>
                match path e with [] => js "root" | p => joinPath p end in
  let line := fun (e : ZodIssue) (k : nat) =>
                js "  " ++ ofNat (S k) ++ js ". " ++ name e ++ js ": "
                ++ message e in
  exists lines,
    errorMessage iss = js "Validation error:" ++ [LF] ++ join [LF] lines
    /\ iss <> []
    /\ length lines = length iss
    /\ (forall k e, nth_error iss k = Some e ->
          nth_error lines k = Some (line e k))
    /\ prop (json (errorRecord (ZodError iss) i)) (js "error")
       = VStr (errorMessage iss)
    /\ (exists payload,
          errorResponse (apiError (ZodError iss) i) = inl payload
          /\ prop payload (js "message") = VStr (errorMessage iss)).
Proof.
  intros Htry name line.
  destruct (safe_tryItem context i log _ log' Htry iss eq_refl) as [Hne Hpaths].
  exists (mapi issueLine iss).
  split; [reflexivity|]. split; [exact Hne|].
  split; [apply length_mapi_from|]. split; [|split].
  - intros k e Hk. unfold mapi. rewrite (nth_error_mapi_from _ _ 0 _ _ Hk).
    f_equal. unfold issueLine, line, name. simpl Nat.add.
    rewrite orRoot_joinPath.
    + rewrite Nat.add_1_r. now destruct (path e).
    + rewrite Forall_forall in Hpaths. apply Hpaths.
      eapply nth_error_In. exact Hk.
  - reflexivity.
  - eexists. split; reflexivity.
Qed.


(* ================================================================== *)
(** ** The batch runner *)

Lemma executeLoop_acc (context : IExecuteFunctions) (n i : nat)
  (data : list INodeExecutionData) (log : Log) :
  executeLoop context n i data log
  = match executeLoop context n i [] log with
    | (Returned rest, l) => (Returned (data ++ rest), l)
    | (Threw e, l) => (Threw e, l)
    end.
Proof.
  revert i data log. induction n as [|n IH]; intros i data log; simpl.
  - now rewrite app_nil_r.
  - destruct (tryItem context i log) as [[error|executionData] log0].
    + destruct (continueOnFail context); [|reflexivity].
      rewrite (IH _ (data ++ _)), (IH _ [_]).
      destruct (executeLoop context n (S i) [] log0) as [[rest|e] l];
        [|reflexivity].
      now rewrite <- app_assoc.
    + rewrite (IH _ (data ++ _)), (IH _ executionData).
      destruct (executeLoop context n (S i) [] log0) as [[rest|e] l];
        [|reflexivity].
      now rewrite <- app_assoc.
Qed.

Lemma executeLoop_split (context : IExecuteFunctions) (a b i : nat)
  (data : list INodeExecutionData) (log : Log) :
  executeLoop context (a + b) i data log
  = match executeLoop context a i data log with
    | (Returned d, l) => executeLoop context b (i + a) d l
    | (Threw e, l) => (Threw e, l)
    end.
Proof.
  revert i data log. induction a as [|a IH]; intros i data log; simpl.
  - now rewrite Nat.add_0_r.
  - destruct (tryItem context i log) as [[error|executionData] log0].
    + destruct (continueOnFail context); [|reflexivity].
      rewrite IH. now replace (S i + a) with (i + S a) by lia.
    + rewrite IH. now replace (S i + a) with (i + S a) by lia.
Qed.

(** With the continuation flag set the loop always returns. *)
Lemma executeLoop_continue (context : IExecuteFunctions) (n i : nat)
  (data : list INodeExecutionData) (log : Log) :
  continueOnFail context = true ->
  exists after l, executeLoop context n i data log = (Returned after, l).
Proof.
  intros Hc. revert i data log. induction n as [|n IH]; intros i data log; simpl.
  - now exists data, log.
  - destruct (tryItem context i log) as [[error|executionData] log0].
    + rewrite Hc. apply IH.
    + apply IH.
Qed.

(** What the [try] block throws: a validation error, the operation error
    with the index of the item, or a plain error. *)
Lemma item_error_shape (context : IExecuteFunctions) (i : nat) (log : Log)
  (error : Thrown) (log' : Log) :
  tryItem context i log = (inl error, log') ->
  (exists iss, error = ZodError iss)
  \/ (exists msg, error = NodeOperationError msg i)
  \/ (exists msg, error = Error msg).
Proof.
  unfold tryItem.
  destruct (isString _ (js "search")).
  - unfold bind at 1. unfold executeSearch, bind, lift.
    destruct (parse SearchOptionsSchema _) as [e|options] eqn:Eo.
    + intros H. injection H as <- _. left.
      destruct (parse_failure _ _ _ sound_SearchOptionsSchema Eo) as [iss [-> _]].
      now exists iss.
    + unfold httpRequest.
      destruct (httpRequestWithAuthentication context log _ _) as [msg|response].
      * intros H. injection H as <- _. right. right. now exists msg.
      * destruct (parse SearchResponseSchema response) as [e|out] eqn:Ep;
          [|discriminate].
        intros H. injection H as <- _. left.
        destruct (parse_failure _ _ _ sound_SearchResponseSchema Ep)
          as [iss [-> _]].
        now exists iss.
  - destruct (isString _ (js "contents")); [|discriminate].
    unfold bind at 1. unfold executeContents, bind, lift.
    destruct (parse ContentsOptionsSchema _) as [e|options] eqn:Eo.
    + intros H. injection H as <- _. left.
      destruct (parse_failure _ _ _ sound_ContentsOptionsSchema Eo)
        as [iss [-> _]].
      now exists iss.
    + destruct (getNodeParameter context (js "urls") i) as [| | | |s| |];
        try (unfold throw; intros H; injection H as <- _; right; right;
             eexists; reflexivity).
      unfold ret. destruct (parseUrls s) as [|u us].
      { unfold throw. simpl. intros H. injection H as <- _. right. left.
        eexists. reflexivity. }
      change (length (u :: us) =? 0) with false. cbv iota. unfold httpRequest.
      destruct (httpRequestWithAuthentication context log (js "youDotComApi")
                  (contentsRequest (u :: us) options)) as [msg|response].
      * intros H. injection H as <- _. right. right. now exists msg.
      * destruct (parse ContentsResponseSchema response) as [e|out] eqn:Ep;
          [|discriminate].
        intros H. injection H as <- _. left.
        destruct (parse_failure _ _ _ sound_ContentsResponseSchema Ep)
          as [iss [-> _]].
        now exists iss.
Qed.

(** C2. Let item [i] fail with any error, the items before it having
    been processed.  The error record and the thrown error both carry the
    index [i].  For a validation failure they carry the rendered message
    and the list of violations, one entry per violation in order, each with
    its path written as the segments joined by dots (a name as it is, an
    index in decimal), its message and its kind token; for any other error
    they carry the plain message, respectively the error itself.  With the
    continuation flag set, the output list is the records of the earlier
    items, then the error record of item [i], then the records of the later
    items, which are processed next.  Without the flag the batch ends with
    the error of item [i], no output list is returned and nothing more is
    requested. *)
Theorem failed_item_policy (context : IExecuteFunctions) (i : nat)
  (before : list INodeExecutionData) (log : Log) (error : Thrown) (log' : Log) :
  i < length (getInputData context) ->
  executeLoop context i 0 [] [] = (Returned before, log) ->
  tryItem context i log = (inl error, log') ->
  let dotted := fun p : list PathSeg =>
        join [dot]
             (map (fun seg => match seg with
                              | Key k => k
                              | Index n => ofNat n
                              end) p) in
  let token := fun c =>
        match c with
        | invalid_type => js "invalid_type"
        | invalid_enum_value => js "invalid_enum_value"
        | invalid_string => js "invalid_string"
        | too_small => js "too_small"
        | too_big => js "too_big"
        end in
  let serialized := fun iss =>
        map (fun issue =>
               VObj [ (js "path", VStr (dotted (path issue)));
                      (js "message", VStr (message issue));
                      (js "code", VStr (token (code issue))) ]) iss in
  let rendered := fun iss =>
        js "Validation error:" ++ [LF]
        ++ join [LF]
             (mapi (fun e k =>
                      js "  " ++ ofNat (k + 1) ++ js ". "
                      ++ match dotted (path e) with
                         | [] => js "root"
                         | _ => dotted (path e)
                         end
                      ++ js ": " ++ message e) iss) in
  pairedItem (errorRecord error i) = i
  /\ itemIndex (apiError error i) = i
  /\ (forall iss, error = ZodError iss ->
        json (errorRecord error i)
        = VObj [ (js "error", VStr (rendered iss));
                 (js "validationErrors", VArr (serialized iss)) ]
        /\ errorResponse (apiError error i)
           = inl (VObj [ (js "message", VStr (rendered iss));
                         (js "issues", VArr (serialized iss)) ])
        /\ length (serialized iss) = length iss
        /\ iss <> [])
  /\ (forall a b n,
        dotted [Key a; Index n; Key b] = a ++ js "." ++ ofNat n ++ js "." ++ b)
  /\ (forall msg,
        error = NodeOperationError msg i \/ error = Error msg ->
        json (errorRecord error i) = VObj [ (js "error", VStr msg) ]
        /\ errorResponse (apiError error i) = inr error)
  /\ ((exists iss, error = ZodError iss)
      \/ (exists msg, error = NodeOperationError msg i)
      \/ (exists msg, error = Error msg))
  /\ (continueOnFail context = true ->
        exists after log'',
          executeLoop context (length (getInputData context) - S i) (S i) [] log'
          = (Returned after, log'')
          /\ execute context
             = (Returned (before ++ errorRecord error i :: after), log''))
  /\ (continueOnFail context = false ->
        execute context = (Threw (apiError error i), log')).
Proof.
  intros Hi Hbefore Htry dotted token serialized rendered.
  assert (Hexec : execute context
                  = executeLoop context (S (length (getInputData context) - S i))
                      i before log).
  { unfold execute.
    replace (length (getInputData context))
      with (i + S (length (getInputData context) - S i)) at 1 by lia.
    rewrite executeLoop_split, Hbefore. reflexivity. }
  split; [now destruct error|]. split; [now destruct error|].
  split.
  { intros iss ->. split; [reflexivity|]. split; [reflexivity|].
    split; [apply length_map|].
    exact (proj1 (safe_tryItem context i log _ log' Htry iss eq_refl)). }
  split; [reflexivity|].
  split; [intros msg [->| ->]; split; reflexivity|].
  split.
  { destruct (item_error_shape context i log error log' Htry)
      as [[iss H]|[[msg H]|[msg H]]].
    - left. now exists iss.
    - right. left. now exists msg.
    - right. right. now exists msg. }
  split.
  - intros Hc.
    destruct (executeLoop_continue context (length (getInputData context) - S i)
                (S i) [] log' Hc) as [after [log'' Hafter]].
    exists after, log''. split; [exact Hafter|].
    rewrite Hexec. simpl. rewrite Htry, Hc, executeLoop_acc, Hafter.
    now rewrite <- app_assoc.
  - intros Hc. rewrite Hexec. simpl. now rewrite Htry, Hc.
Qed.

(** C3 (amended). An item whose operation is neither ['search'] nor
    ['contents'] is skipped: its [try] block throws nothing, issues no
    request and pushes no record, and the loop goes on with the next item
    with the output list as it was. *)
Theorem unknown_operation_is_skipped (context : IExecuteFunctions) (i : nat)
  (log : Log) :
  isString (getNodeParameter context (js "operation") i) (js "search") = false ->
  isString (getNodeParameter context (js "operation") i) (js "contents") = false ->
  tryItem context i log = (inr [], log)
  /\ forall remaining returnData,
       executeLoop context (S remaining) i returnData log
       = executeLoop context remaining (S i) returnData log.
Proof.
  intros Hs Hc.
  assert (Htry : tryItem context i log = (inr [], log)).
  { unfold tryItem. now rewrite Hs, Hc. }
  split; [exact Htry|]. intros remaining returnData. simpl.
  now rewrite Htry, app_nil_r.
Qed.

(** C5. When the options are valid and the URL string leaves no URL, the
    contents operation throws the operation error "At least one URL is
    required" for that item; no request is issued.  The error is not a
    validation error: its record carries the plain message only.  The
    inputs [""] and [","] leave no URL. *)
Theorem empty_url_list_is_operation_error (context : IExecuteFunctions)
  (i : nat) (log : Log) (urlsString : jsstring) (options : value) :
  getNodeParameter context (js "urls") i = VStr urlsString ->
  parse ContentsOptionsSchema (getNodeParameter context (js "contentsOptions") i)
  = inr options ->
  parseUrls urlsString = [] ->
  let error := NodeOperationError (js "At least one URL is required") i in
  executeContents context i log = (inl error, log)
  /\ (getNodeParameter context (js "operation") i = VStr (js "contents") ->
      tryItem context i log = (inl error, log))
  /\ errorRecord error i
     = {| json := VObj [ (js "error", VStr (js "At least one URL is required")) ];
          pairedItem := i |}
  /\ apiError error i = {| errorResponse := inr error; itemIndex := i |}
  /\ parseUrls (js "") = [] /\ parseUrls (js ",") = [].
Proof.
  intros Hurls Hopts Hnone error.
  assert (H : executeContents context i log = (inl error, log)).
  { unfold executeContents, bind, lift. rewrite Hopts, Hurls. unfold ret.
    rewrite Hnone. reflexivity. }
  split; [exact H|]. split.
  - intros Hop. unfold tryItem. rewrite Hop.
    change (isString (VStr (js "contents")) (js "search")) with false.
    change (isString (VStr (js "contents")) (js "contents")) with true.
    cbv iota. unfold bind. now rewrite H.
  - repeat split; reflexivity.
Qed.


(* ================================================================== *)
(** ** Validated options *)

Lemma echo_z_string (url : bool) : echo (z_string url).
Proof.
  intros p data. unfold z_string. destruct data; simpl; try discriminate.
  destruct (url && negb (isURL s)); simpl; [discriminate|reflexivity].
Qed.

Lemma echo_z_number (checks : list NumberCheck) : echo (z_number checks).
Proof.
  intros p data. unfold z_number. destruct data; simpl; try discriminate.
  destruct n; simpl; try discriminate; reflexivity.
Qed.

Lemma echo_z_enum (values : list jsstring) : echo (z_enum values).
Proof.
  intros p data. unfold z_enum. destruct data; simpl; try discriminate.
  destruct (existsb (eqb s) values); simpl; [reflexivity|discriminate].
Qed.

Lemma echo_optional (inner : ZodType) : echo inner -> echo (optional inner).
Proof.
  intros H p data. unfold optional. destruct data; try apply H. reflexivity.
Qed.

Lemma echo_z_array (element : ZodType) : echo element -> echo (z_array element).
Proof.
  intros H p data. unfold z_array. destruct data; simpl; try discriminate.
  intros Hv. rewrite (mergeArray_output _ Hv). f_equal.
  apply mergeArray_valid in Hv. unfold mapi in *.
  generalize dependent 0. induction items as [|item items IH]; intros i Hv;
    simpl in *; [reflexivity|].
  inversion Hv as [|? ? H1 H2]; subst. f_equal; [now apply H|now apply IH].
Qed.

Ltac echo_shape :=
  repeat first
    [ apply Forall_nil
    | apply Forall_cons
    | apply echo_optional
    | apply echo_z_array
    | apply echo_z_string
    | apply echo_z_number
    | apply echo_z_enum ].

(** Validated options are the caller's record restricted to the declared
    fields: each declared field passed its rule and is returned as it was
    given. *)
Lemma parse_options (shape : list (jsstring * ZodType)) (raw options : value) :
  distinct (map fst shape) = true ->
  Forall (fun ks => echo (snd ks)) shape ->
  parse (z_object shape strip) raw = inr options ->
  exists fields,
    raw = VObj fields
    /\ forall k s, In (k, s) shape ->
         status (s [Key k] (get k fields)) = valid
         /\ prop options k = get k fields.
Proof.
  intros Hd Hecho Hparse. apply parse_success in Hparse as [Hv ->].
  destruct raw; try discriminate. exists fields. split; [reflexivity|].
  intros k s Hin.
  pose proof (proj1 (z_object_valid_iff shape strip [] fields) Hv) as Hall.
  rewrite Forall_forall in Hall, Hecho.
  pose proof (Hall (k, s) Hin) as Hk. simpl in Hk. split; [exact Hk|].
  rewrite (z_object_get_known shape strip [] fields k s Hv Hd Hin). simpl.
  now apply (Hecho (k, s) Hin).
Qed.

Lemma one_le_not_zero (q : Q) :
  negb (Qle_bool (inject_Z 1) q) = false -> Qeq_bool q (inject_Z 0) = false.
Proof.
  intros H. apply negb_false_iff in H. apply Qle_bool_iff in H.
  destruct (Qeq_bool q (inject_Z 0)) eqn:E; [|reflexivity].
  apply Qeq_bool_iff in E. rewrite E in H. unfold Qle in H. simpl in H. lia.
Qed.

(** A validated number with a lower bound of 1 is truthy when set. *)
Lemma valid_positive_truthy (hi : Z) (p : list PathSeg) (v : value) :
  status (optional (z_number [Int; Min 1; Max hi]) p v) = valid ->
  truthy v = present v /\ isEmptyString v = false.
Proof.
  destruct v as [| | |n| | |]; simpl; try discriminate; try (now split).
  destruct n as [q| |neg]; simpl; try discriminate.
  destruct (Z.eqb _ 0); simpl;
    destruct (negb (Qle_bool (inject_Z 1) q)) eqn:E; simpl;
    destruct (negb (Qle_bool q (inject_Z hi))); simpl; try discriminate.
  intros _. now rewrite (one_le_not_zero _ E).
Qed.

Lemma valid_number_present (checks : list NumberCheck) (p : list PathSeg)
  (v : value) :
  status (optional (z_number checks) p v) = valid -> isEmptyString v = false.
Proof. destruct v; simpl; try discriminate; reflexivity. Qed.

(** A validated member of an enumeration of non-empty strings is truthy
    when set. *)
Lemma valid_enum_truthy (values : list jsstring) (p : list PathSeg) (v : value) :
  status (optional (z_enum values) p v) = valid ->
  existsb (eqb []) values = false ->
  truthy v = present v /\ isEmptyString v = false.
Proof.
  intros Hv Hne. revert Hv. destruct v; simpl; try discriminate; try (now split).
  destruct (existsb (eqb s) values) eqn:E; simpl; [|discriminate].
  intros _. destruct s; [congruence|now split].
Qed.

(** A validated string is truthy when set and not empty. *)
Lemma valid_string_truthy (p : list PathSeg) (v : value) :
  status (optional (z_string false) p v) = valid ->
  truthy v = present v && negb (isEmptyString v).
Proof.
  destruct v; simpl; try discriminate; try reflexivity.
  now destruct s.
Qed.

(** The chain of conditional assignments of [#executeSearch] appends, in
    order, the entries whose condition holds. *)
Lemma assign_chain_search (query : value) (b1 b2 b3 b4 b5 b6 b7 b8 : bool)
  (v1 v2 v3 v4 v5 v6 v7 v8 : value) :
  assignIf b8 (js "safesearch") v8
    (assignIf b7 (js "offset") v7
       (assignIf b6 (js "livecrawl_formats") v6
          (assignIf b5 (js "livecrawl") v5
             (assignIf b4 (js "language") v4
                (assignIf b3 (js "freshness") v3
                   (assignIf b2 (js "country") v2
                      (assignIf b1 (js "count") v1 [(js "query", query)])))))))
  = (js "query", query)
    :: (if b1 then [(js "count", v1)] else [])
    ++ (if b2 then [(js "country", v2)] else [])
    ++ (if b3 then [(js "freshness", v3)] else [])
    ++ (if b4 then [(js "language", v4)] else [])
    ++ (if b5 then [(js "livecrawl", v5)] else [])
    ++ (if b6 then [(js "livecrawl_formats", v6)] else [])
    ++ (if b7 then [(js "offset", v7)] else [])
    ++ (if b8 then [(js "safesearch", v8)] else [])
    ++ [].
Proof.
  destruct b1, b2, b3, b4, b5, b6, b7, b8; reflexivity.
Qed.

Lemma SearchOptionsShape_distinct : distinct (map fst SearchOptionsShape) = true.
Proof. reflexivity. Qed.

Lemma SearchOptionsShape_echo : Forall (fun ks => echo (snd ks)) SearchOptionsShape.
Proof. unfold SearchOptionsShape. echo_shape. Qed.

(** The query string built from validated search options: the query,
    then one entry per optional field that is set and is not the empty
    string, with the caller's value. *)
Lemma searchQs_of_valid (query raw options : value) :
  parse SearchOptionsSchema raw = inr options ->
  exists fields,
    raw = VObj fields
    /\ searchQs query options
       = (js "query", query)
         :: flat_map (fun k => if present (get k fields)
                                  && negb (isEmptyString (get k fields))
                               then [(k, get k fields)] else [])
                     optionalKeys
    /\ (forall k, In k [ js "count"; js "freshness"; js "livecrawl";
                         js "livecrawl_formats"; js "offset"; js "safesearch" ] ->
          isEmptyString (get k fields) = false).
Proof.
  intros Hparse.
  destruct (parse_options _ raw options SearchOptionsShape_distinct
              SearchOptionsShape_echo Hparse)
    as [fields [-> Hfields]].
  exists fields. split; [reflexivity|].
  assert (Hf : forall k s, In (k, s) SearchOptionsShape ->
                 status (s [Key k] (get k fields)) = valid
                 /\ prop options k = get k fields) by exact Hfields.
  unfold SearchOptionsShape in Hf.
  destruct (Hf _ _ (or_introl eq_refl)) as [V1 P1].
  destruct (Hf _ _ (or_intror (or_introl eq_refl))) as [V2 P2].
  destruct (Hf _ _ (or_intror (or_intror (or_introl eq_refl)))) as [V3 P3].
  destruct (Hf _ _ (or_intror (or_intror (or_intror (or_introl eq_refl)))))
    as [V4 P4].
  destruct (Hf _ _ (or_intror (or_intror (or_intror (or_intror
              (or_introl eq_refl)))))) as [V5 P5].
  destruct (Hf _ _ (or_intror (or_intror (or_intror (or_intror (or_intror
              (or_introl eq_refl))))))) as [V6 P6].
  destruct (Hf _ _ (or_intror (or_intror (or_intror (or_intror (or_intror
              (or_intror (or_introl eq_refl)))))))) as [V7 P7].
  destruct (Hf _ _ (or_intror (or_intror (or_intror (or_intror (or_intror
              (or_intror (or_intror (or_introl eq_refl))))))))) as [V8 P8].
  clear Hf.
  destruct (valid_positive_truthy _ _ _ V1) as [T1 E1].
  pose proof (valid_string_truthy _ _ V2) as T2.
  destruct (valid_enum_truthy _ _ _ V3 eq_refl) as [T3 E3].
  pose proof (valid_string_truthy _ _ V4) as T4.
  destruct (valid_enum_truthy _ _ _ V5 eq_refl) as [T5 E5].
  destruct (valid_enum_truthy _ _ _ V6 eq_refl) as [T6 E6].
  pose proof (valid_number_present _ _ _ V7) as E7.
  destruct (valid_enum_truthy _ _ _ V8 eq_refl) as [T8 E8].
  split.
  - unfold searchQs. rewrite P1, P2, P3, P4, P5, P6, P7, P8.
    rewrite assign_chain_search. unfold optionalKeys, flat_map.
    rewrite T1, T2, T3, T4, T5, T6, T8, E1, E3, E5, E6, E7, E8.
    unfold present. rewrite !andb_true_r. reflexivity.
  - intros k Hk. simpl in Hk.
    destruct Hk as [<-|[<-|[<-|[<-|[<-|[<-|[]]]]]]]; assumption.
Qed.


(* ================================================================== *)
(** ** The search request *)

Lemma executeSearch_request (context : IExecuteFunctions) (i : nat) (log : Log)
  (options : value) :
  parse SearchOptionsSchema (getNodeParameter context (js "searchOptions") i)
  = inr options ->
  snd (executeSearch context i log)
  = log ++ [searchRequest (getNodeParameter context (js "query") i) options].
Proof.
  intros H. unfold executeSearch, bind, lift. rewrite H. unfold httpRequest.
  destruct (httpRequestWithAuthentication context log _ _); [reflexivity|].
  destruct (parse SearchResponseSchema v); reflexivity.
Qed.

Lemma map_fst_selected (sent : jsstring -> bool) (f : jsstring -> value)
  (keys : list jsstring) :
  map fst (flat_map (fun k => if sent k then [(k, f k)] else []) keys)
  = filter sent keys.
Proof.
  induction keys as [|k keys IH]; simpl; [reflexivity|].
  rewrite map_app, IH. now destruct (sent k).
Qed.

Lemma get_cons (k k' : jsstring) (v : value) (rest : list (jsstring * value)) :
  get k ((k', v) :: rest) = if eqb k k' then v else get k rest.
Proof. reflexivity. Qed.

Lemma get_selected (sent : jsstring -> bool) (f : jsstring -> value)
  (keys : list jsstring) (k : jsstring) :
  In k keys -> sent k = true ->
  get k (flat_map (fun k' => if sent k' then [(k', f k')] else []) keys) = f k.
Proof.
  intros Hin Hsent. induction keys as [|k' keys IH]; [contradiction|].
  simpl. destruct (eqb k k') eqn:E.
  - apply eqb_eq in E. subst k'. rewrite Hsent. simpl. now rewrite eqb_refl.
  - assert (Hin' : In k keys).
    { destruct Hin as [->|H]; [|exact H]. rewrite eqb_refl in E. discriminate. }
    destruct (sent k'); simpl; [rewrite E|]; now apply IH.
Qed.

(** C1 (amended). For valid search options the request carries the query
    and, in the order count, country, freshness, language, livecrawl,
    livecrawl_formats, offset, safesearch, one parameter per optional field
    that is set and is not the empty string, with the caller's value
    unchanged.  For count, freshness, livecrawl, livecrawl_formats, offset
    and safesearch being set is enough (a valid value is never the empty
    string); in particular [offset = 0] is sent.  A field that is not set
    gives no parameter. *)
Theorem search_request_query_parameters (context : IExecuteFunctions) (i : nat)
  (log : Log) (options : value) :
  parse SearchOptionsSchema (getNodeParameter context (js "searchOptions") i)
  = inr options ->
  exists fields,
    getNodeParameter context (js "searchOptions") i = VObj fields
    /\ let sent := fun k => present (get k fields)
                            && negb (isEmptyString (get k fields)) in
       let params :=
         (js "query", getNodeParameter context (js "query") i)
         :: flat_map (fun k => if sent k then [(k, get k fields)] else [])
                     optionalKeys in
       snd (executeSearch context i log)
       = log ++ [ {| method := GET;
                     url := js "https://ydc-index.io/v1/search";
                     headers := [(js "User-Agent", USER_AGENT)];
                     qs := Some params;
                     body := None;
                     jsonFlag := true |} ]
       /\ map fst params = js "query" :: filter sent optionalKeys
       /\ (forall k, In k [ js "count"; js "freshness"; js "livecrawl";
                            js "livecrawl_formats"; js "offset";
                            js "safesearch" ] ->
             sent k = present (get k fields))
       /\ (forall k, In k optionalKeys -> sent k = true ->
             get k params = get k fields)
       /\ (get (js "offset") fields = VNum (Finite (inject_Z 0)) ->
             sent (js "offset") = true).
Proof.
  intros Hparse.
  destruct (searchQs_of_valid (getNodeParameter context (js "query") i) _ _ Hparse)
    as [fields [Hraw [Hqs Hne]]].
  exists fields. split; [exact Hraw|]. cbv zeta.
  split; [|split; [|split; [|split]]].
  - rewrite (executeSearch_request context i log options Hparse).
    unfold searchRequest. now rewrite Hqs.
  - rewrite map_cons, map_fst_selected. reflexivity.
  - intros k Hk. rewrite (Hne k Hk). apply andb_true_r.
  - intros k Hk Hsent. rewrite get_cons.
    replace (eqb k (js "query")) with false.
    + now apply get_selected.
    + unfold optionalKeys in Hk. simpl in Hk.
      destruct Hk as [<-|[<-|[<-|[<-|[<-|[<-|[<-|[<-|[]]]]]]]]]; reflexivity.
  - intros H0. rewrite H0. reflexivity.
Qed.

(** C10. Search options that set only country and/or language, to any
    non-empty strings, are valid, and the request carries these strings
    unchanged under [country] and [language]. *)
Theorem country_language_sent_verbatim (context : IExecuteFunctions) (i : nat)
  (log : Log) (fields : list (jsstring * value))
  (country language : option jsstring) :
  getNodeParameter context (js "searchOptions") i = VObj fields ->
  get (js "country") fields = field country ->
  get (js "language") fields = field language ->
  country <> Some [] -> language <> Some [] ->
  (forall k, In k [ js "count"; js "freshness"; js "livecrawl";
                    js "livecrawl_formats"; js "offset"; js "safesearch" ] ->
     get k fields = VUndefined) ->
  (exists options, parse SearchOptionsSchema (VObj fields) = inr options)
  /\ snd (executeSearch context i log)
     = log ++ [ {| method := GET;
                   url := js "https://ydc-index.io/v1/search";
                   headers := [(js "User-Agent", USER_AGENT)];
                   qs := Some ((js "query", getNodeParameter context (js "query") i)
                               :: entry (js "country") country
                               ++ entry (js "language") language);
                   body := None;
                   jsonFlag := true |} ].
Proof.
  intros Hraw Hc Hl Hcne Hlne Hrest.
  assert (Hvalid : status (SearchOptionsSchema [] (VObj fields)) = valid).
  { apply z_object_valid_iff. unfold SearchOptionsShape.
    repeat apply Forall_cons; try apply Forall_nil; cbn [fst snd];
      try (rewrite Hrest by (simpl; tauto); reflexivity).
    - rewrite Hc. now destruct country.
    - rewrite Hl. now destruct language. }
  assert (Hparse : parse SearchOptionsSchema
                     (getNodeParameter context (js "searchOptions") i)
                   = inr (output (SearchOptionsSchema [] (VObj fields)))).
  { rewrite Hraw. apply parse_success. now split. }
  split; [eexists; rewrite <- Hraw; exact Hparse|].
  rewrite (executeSearch_request context i log _ Hparse). unfold searchRequest.
  destruct (searchQs_of_valid (getNodeParameter context (js "query") i) _ _ Hparse)
    as [fields' [Hraw' [Hqs _]]].
  rewrite Hraw in Hraw'. injection Hraw' as <-. rewrite Hqs.
  unfold optionalKeys. cbn [flat_map].
  rewrite (Hrest (js "count")), (Hrest (js "freshness")),
    (Hrest (js "livecrawl")), (Hrest (js "livecrawl_formats")),
    (Hrest (js "offset")), (Hrest (js "safesearch")) by (simpl; tauto).
  rewrite Hc, Hl.
  destruct country as [[|c s]|], language as [[|c' s']|];
    try (exfalso; apply Hcne; reflexivity);
    try (exfalso; apply Hlne; reflexivity); reflexivity.
Qed.


(* ================================================================== *)
(** ** The contents request *)

Lemma ContentsOptionsShape_distinct :
  distinct (map fst ContentsOptionsShape) = true.
Proof. reflexivity. Qed.

Lemma ContentsOptionsShape_echo :
  Forall (fun ks => echo (snd ks)) ContentsOptionsShape.
Proof. unfold ContentsOptionsShape. echo_shape. Qed.

(** Validated formats are absent or an array, so the test
    [formats && formats.length > 0] asks for an array with an element. *)
Lemma valid_formats (values : list jsstring) (p : list PathSeg) (v : value) :
  status (optional (z_array (z_enum values)) p v) = valid ->
  truthy v && lengthPositive v = nonEmptyArray v.
Proof.
  destruct v; try (simpl; discriminate); try reflexivity.
  intros _. now destruct items.
Qed.

Lemma assign_chain_contents (urls : value) (b1 b2 : bool) (v1 v2 : value) :
  assignIf b2 (js "crawl_timeout") v2
    (assignIf b1 (js "formats") v1 [(js "urls", urls)])
  = (js "urls", urls)
    :: (if b1 then [(js "formats", v1)] else [])
    ++ (if b2 then [(js "crawl_timeout", v2)] else []).
Proof. destruct b1, b2; reflexivity. Qed.

(** The body built from validated contents options. *)
Lemma contentsBody_of_valid (urls : list jsstring) (raw options : value) :
  parse ContentsOptionsSchema raw = inr options ->
  exists fields,
    raw = VObj fields
    /\ contentsBody urls options
       = (js "urls", VArr (map VStr urls))
         :: (if nonEmptyArray (get (js "formats") fields)
             then [(js "formats", get (js "formats") fields)] else [])
         ++ (if present (get (js "crawl_timeout") fields)
             then [(js "crawl_timeout", get (js "crawl_timeout") fields)]
             else []).
Proof.
  intros Hparse.
  destruct (parse_options _ raw options ContentsOptionsShape_distinct
              ContentsOptionsShape_echo Hparse) as [fields [-> Hf]].
  exists fields. split; [reflexivity|].
  unfold ContentsOptionsShape in Hf.
  destruct (Hf _ _ (or_introl eq_refl)) as [V1 P1].
  destruct (Hf _ _ (or_intror (or_introl eq_refl))) as [V2 P2].
  unfold contentsBody. rewrite P1, P2, assign_chain_contents.
  rewrite (valid_formats _ _ _ V1).
  now rewrite (proj1 (valid_positive_truthy _ _ _ V2)).
Qed.

Lemma executeContents_request (context : IExecuteFunctions) (i : nat) (log : Log)
  (urlsString : jsstring) (options : value) :
  getNodeParameter context (js "urls") i = VStr urlsString ->
  parse ContentsOptionsSchema (getNodeParameter context (js "contentsOptions") i)
  = inr options ->
  parseUrls urlsString <> [] ->
  snd (executeContents context i log)
  = log ++ [contentsRequest (parseUrls urlsString) options].
Proof.
  intros Hurls Hopts Hne. unfold executeContents, bind, lift.
  rewrite Hopts, Hurls. unfold ret.
  destruct (parseUrls urlsString) as [|u us] eqn:E; [contradiction|].
  change (length (u :: us) =? 0) with false. cbv iota. unfold httpRequest.
  destruct (httpRequestWithAuthentication context log (js "youDotComApi")
              (contentsRequest (u :: us) options)); [reflexivity|].
  destruct (parse ContentsResponseSchema v); reflexivity.
Qed.

(** C9. For valid contents options and a URL string that leaves at least
    one URL, the request body holds the URL list under [urls], holds
    [formats] exactly when the caller gave a non-empty array of formats,
    and holds [crawl_timeout] exactly when the caller set it; both with the
    caller's value. *)
Theorem contents_request_body (context : IExecuteFunctions) (i : nat)
  (log : Log) (urlsString : jsstring) (options : value) :
  getNodeParameter context (js "urls") i = VStr urlsString ->
  parse ContentsOptionsSchema (getNodeParameter context (js "contentsOptions") i)
  = inr options ->
  parseUrls urlsString <> [] ->
  exists fields payload,
    getNodeParameter context (js "contentsOptions") i = VObj fields
    /\ snd (executeContents context i log)
       = log ++ [ {| method := POST;
                     url := js "https://ydc-index.io/v1/contents";
                     headers := [(js "User-Agent", USER_AGENT)];
                     qs := None;
                     body := Some payload;
                     jsonFlag := true |} ]
    /\ get (js "urls") payload = VArr (map VStr (parseUrls urlsString))
    /\ has (js "formats") payload = nonEmptyArray (get (js "formats") fields)
    /\ has (js "crawl_timeout") payload
       = present (get (js "crawl_timeout") fields)
    /\ (has (js "formats") payload = true ->
          get (js "formats") payload = get (js "formats") fields)
    /\ (has (js "crawl_timeout") payload = true ->
          get (js "crawl_timeout") payload = get (js "crawl_timeout") fields)
    /\ forall k, has k payload = true ->
         k = js "urls" \/ k = js "formats" \/ k = js "crawl_timeout".
Proof.
  intros Hurls Hopts Hne.
  destruct (contentsBody_of_valid (parseUrls urlsString) _ _ Hopts)
    as [fields [Hraw Hbody]].
  exists fields. eexists. split; [exact Hraw|]. split.
  { rewrite (executeContents_request context i log urlsString options
               Hurls Hopts Hne).
    unfold contentsRequest. rewrite Hbody. reflexivity. }
  destruct (nonEmptyArray (get (js "formats") fields)),
           (present (get (js "crawl_timeout") fields));
    (split; [reflexivity|]); (split; [reflexivity|]); (split; [reflexivity|]);
    (split; [intros H; first [reflexivity|cbv in H; discriminate H]|]);
    (split; [intros H; first [reflexivity|cbv in H; discriminate H]|]);
    intros k H; cbn [has app] in H;
    repeat (apply orb_true_iff in H; destruct H as [H|H]);
    try (apply eqb_eq in H; tauto); discriminate.
Qed.


(* ================================================================== *)
(** ** Responses *)

Lemma contents_result_minimal (p : list PathSeg) (fields : list (jsstring * value)) :
  minimalResult isURL fields ->
  status (z_object ContentsResultShape passthrough p (VObj fields)) = valid
  /\ (forall k, isKnown ContentsResultShape k = false ->
        prop (output (z_object ContentsResultShape passthrough p (VObj fields))) k
        = get k fields)
  /\ prop (output (z_object ContentsResultShape passthrough p (VObj fields)))
          (js "url")
     = get (js "url") fields.
Proof.
  intros [[u [Hu Hok]] [Hm [Hh Hd]]].
  assert (Hv : status (z_object ContentsResultShape passthrough p (VObj fields))
               = valid).
  { apply z_object_valid_iff. unfold ContentsResultShape.
    repeat apply Forall_cons; try apply Forall_nil; cbn [fst snd].
    - rewrite Hu. unfold z_string. now rewrite Hok.
    - now rewrite Hm.
    - now rewrite Hh.
    - now rewrite Hd. }
  split; [exact Hv|]. split.
  - intros k Hk.
    exact (z_object_get_unknown ContentsResultShape passthrough p fields k Hv Hk).
  - rewrite (z_object_get_known ContentsResultShape passthrough p fields
               (js "url") (z_string true) Hv eq_refl (or_introl eq_refl)).
    apply echo_z_string.
    pose proof (proj1 (z_object_valid_iff ContentsResultShape passthrough p fields)
                  Hv) as Hall.
    unfold ContentsResultShape in Hall. inversion Hall; subst. assumption.
Qed.

Lemma contents_results_minimal (p : list PathSeg)
  (items : list (list (jsstring * value))) (i : nat) :
  Forall (minimalResult isURL) items ->
  let results :=
    mapi_from i (fun item j =>
                   z_object ContentsResultShape passthrough (p ++ [Index j]) item)
              (map VObj items) in
  Forall (fun r => status r = valid) results
  /\ Forall2 (fun fields out =>
                (forall k, isKnown ContentsResultShape k = false ->
                   prop out k = get k fields)
                /\ prop out (js "url") = get (js "url") fields)
             items (map output results).
Proof.
  intros H. revert i. induction H as [|fields items Hf _ IH]; intros i; simpl.
  - split; constructor.
  - destruct (IH (S i)) as [H1 H2].
    destruct (contents_result_minimal (p ++ [Index i]) fields Hf) as [Hv [Hk Hu]].
    split; constructor; try assumption. now split.
Qed.

(** C8. A search response that holds [results] (here the empty record,
    the least that is required), no [metadata], and any other fields is
    valid, and the validated value holds every such other field with the
    value it had.  A contents response whose results hold a [url] the URL
    parser accepts, none of the optional fields, and any other fields is
    valid, and every validated result holds each such other field, and the
    [url], with the value it had. *)
Theorem response_extra_fields_pass_through
  (fields : list (jsstring * value)) (items : list (list (jsstring * value))) :
  get (js "results") fields = VObj [] ->
  get (js "metadata") fields = VUndefined ->
  Forall (minimalResult isURL) items ->
  (exists out,
     parse SearchResponseSchema (VObj fields) = inr out
     /\ prop out (js "results") = VObj []
     /\ forall k, isKnown SearchResponseShape k = false ->
          prop out k = get k fields)
  /\ (exists outs,
        parse ContentsResponseSchema (VArr (map VObj items)) = inr (VArr outs)
        /\ Forall2 (fun item out =>
                      (forall k, isKnown ContentsResultShape k = false ->
                         prop out k = get k item)
                      /\ prop out (js "url") = get (js "url") item)
                   items outs).
Proof.
  intros Hr Hm Hitems. split.
  - assert (Hv : status (SearchResponseSchema [] (VObj fields)) = valid).
    { apply z_object_valid_iff. unfold SearchResponseShape.
      repeat apply Forall_cons; try apply Forall_nil; cbn [fst snd].
      - now rewrite Hr.
      - now rewrite Hm. }
    exists (output (SearchResponseSchema [] (VObj fields))).
    split; [apply parse_success; now split|]. split.
    + unfold SearchResponseSchema in *.
      erewrite (z_object_get_known SearchResponseShape passthrough [] fields
                  (js "results") _ Hv eq_refl (or_introl eq_refl)).
      now rewrite Hr.
    + intros k Hk.
      exact (z_object_get_unknown SearchResponseShape passthrough [] fields k Hv Hk).
  - destruct (contents_results_minimal [] items 0 Hitems) as [Hv Hout].
    apply mergeArray_valid in Hv.
    exists (map output
              (mapi_from 0
                 (fun item j =>
                    z_object ContentsResultShape passthrough ([] ++ [Index j]) item)
                 (map VObj items))).
    split; [|exact Hout].
    apply parse_success. split; [exact Hv|].
    symmetry. exact (mergeArray_output _ Hv).
Qed.


(* ================================================================== *)
(** ** The URL list: composition, round trip and emptiness *)

Lemma split_app_sep (sep : N) (a b : jsstring) :
  split sep (a ++ sep :: b) = split sep a ++ split sep b.
Proof.
  induction a as [|c a IH]; simpl.
  - now rewrite N.eqb_refl.
  - destruct (N.eqb c sep); [now rewrite IH|].
    rewrite IH. pose proof (split_not_nil sep a) as Hne.
    now destruct (split sep a).
Qed.

Lemma split_no_sep_id (sep : N) (s : jsstring) :
  ~ In sep s -> split sep s = [s].
Proof.
  induction s as [|c s IH]; intros H; simpl; [reflexivity|].
  destruct (N.eqb c sep) eqn:E.
  - apply N.eqb_eq in E. subst c. exfalso. apply H. now left.
  - rewrite IH; [reflexivity|]. intros Hin. apply H. now right.
Qed.

(** Splitting what was joined gives the pieces back. *)
Lemma split_join_pieces (sep : N) (pieces : list jsstring) :
  pieces <> [] -> Forall (fun piece => ~ In sep piece) pieces ->
  split sep (join [sep] pieces) = pieces.
Proof.
  induction pieces as [|p ps IH]; intros Hne Hall; [contradiction|].
  inversion Hall as [|? ? Hp Hps]; subst.
  destruct ps as [|p' ps].
  - simpl. now apply split_no_sep_id.
  - change (join [sep] (p :: p' :: ps)) with (p ++ sep :: join [sep] (p' :: ps)).
    rewrite split_app_sep, IH by (assumption || discriminate).
    now rewrite split_no_sep_id.
Qed.

Lemma trimStart_id (s : jsstring) : startsClean s = true -> trimStart s = s.
Proof.
  destruct s as [|c s]; simpl; [reflexivity|]. intros H.
  apply negb_true_iff in H. now rewrite H.
Qed.

Lemma trim_id (s : jsstring) :
  startsClean s = true -> endsClean s = true -> trim s = s.
Proof.
  intros Hs He. unfold trim, trimEnd. rewrite (trimStart_id s Hs).
  unfold endsClean in He. rewrite (trimStart_id (rev s) He).
  apply rev_involutive.
Qed.

Lemma parseUrls_clean (urlsString : jsstring) :
  Forall (fun url => url <> [] /\ ~ In comma url
                     /\ startsClean url = true /\ endsClean url = true)
         (parseUrls urlsString).
Proof.
  unfold parseUrls. apply Forall_forall. intros url Hin.
  apply filter_In in Hin as [Hin Hlen].
  apply in_map_iff in Hin as [piece [<- Hpiece]].
  pose proof (trim_clean piece) as [Hs He].
  repeat split; try assumption.
  - intros E. rewrite E in Hlen. discriminate.
  - intros Hc. apply trim_incl in Hc.
    pose proof (split_no_sep comma urlsString) as Hall.
    rewrite Forall_forall in Hall. exact (Hall piece Hpiece Hc).
Qed.

(** X12. The URL list of two strings joined by a comma is the URL list of the
    first followed by the URL list of the second. *)
Theorem parseUrls_comma_app (a b : jsstring) :
  parseUrls (a ++ comma :: b) = parseUrls a ++ parseUrls b.
Proof.
  unfold parseUrls. now rewrite split_app_sep, map_app, filter_app.
Qed.

(** X13. Writing a URL list back as a comma-separated string and reading it
    again gives the same list. *)
Theorem parseUrls_join_round_trip (urlsString : jsstring) :
  parseUrls (join [comma] (parseUrls urlsString)) = parseUrls urlsString.
Proof.
  pose proof (parseUrls_clean urlsString) as Hclean.
  destruct (parseUrls urlsString) as [|u us] eqn:E; [reflexivity|].
  unfold parseUrls at 1. rewrite split_join_pieces.
  - clear E. induction Hclean as [|x l [Hne [_ [Hs He]]] _ IH]; [reflexivity|].
    simpl. rewrite (trim_id x Hs He), IH.
    destruct x; [contradiction|reflexivity].
  - discriminate.
  - eapply Forall_impl; [|exact Hclean]. now intros x [_ [H _]].
Qed.

Lemma trimStart_blank (s : jsstring) : isBlank s = true -> trimStart s = [].
Proof.
  induction s as [|c s IH]; simpl; [reflexivity|]. intros H.
  apply andb_true_iff in H as [Hc Hs]. rewrite Hc. now apply IH.
Qed.

Lemma trim_nil_iff (s : jsstring) : trim s = [] <-> isBlank s = true.
Proof.
  split.
  - intros H. destruct (trim_split s) as [l [r [Hs [Hl Hr]]]].
    rewrite H in Hs. rewrite Hs. unfold isBlank in *.
    rewrite forallb_app. simpl. now rewrite Hl, Hr.
  - intros H. unfold trim. now rewrite (trimStart_blank s H).
Qed.

Lemma split_blank_iff (s : jsstring) :
  Forall (fun piece => isBlank piece = true) (split comma s)
  <-> forallb isSeparator s = true.
Proof.
  induction s as [|c s [IH1 IH2]]; simpl.
  - split; [reflexivity|]. intros _. constructor; [reflexivity|constructor].
  - unfold isSeparator at 1. destruct (N.eqb c comma) eqn:E; simpl.
    + split.
      * intros H. apply IH1. now inversion H.
      * intros H. constructor; [reflexivity|now apply IH2].
    + pose proof (split_not_nil comma s) as Hne.
      destruct (split comma s) as [|p ps]; [contradiction|].
      split.
      * intros H. inversion H as [|? ? Hcp Hps]; subst. simpl in Hcp.
        apply andb_true_iff in Hcp as [Hc Hp]. rewrite Hc. simpl.
        apply IH1. now constructor.
      * intros H. apply andb_true_iff in H as [Hc H]. apply IH2 in H.
        inversion H as [|? ? Hp Hps]; subst.
        constructor; [|exact Hps]. simpl. now rewrite Hc, Hp.
Qed.

Lemma parseUrls_nil_iff (urlsString : jsstring) :
  parseUrls urlsString = [] <-> forallb isSeparator urlsString = true.
Proof.
  assert (H : parseUrls urlsString = []
              <-> Forall (fun piece => isBlank piece = true)
                         (split comma urlsString)).
  { unfold parseUrls.
    induction (split comma urlsString) as [|p ps [IH1 IH2]]; simpl.
    - split; [constructor|reflexivity].
    - destruct (trim p) as [|c t] eqn:E; simpl.
      + apply trim_nil_iff in E. split.
        * intros H. constructor; [exact E|now apply IH1].
        * intros H. apply IH2. now inversion H.
      + split; [discriminate|]. intros H. inversion H as [|? ? Hp _]; subst.
        apply trim_nil_iff in Hp. congruence. }
  destruct H as [H1 H2]. destruct (split_blank_iff urlsString) as [H3 H4].
  split; auto.
Qed.

(** X14. With valid options and a string for the URLs, the contents operation
    throws its operation error exactly when the string holds nothing but
    commas and white space; any other string makes it issue a request. *)
Theorem no_url_iff_only_separators (context : IExecuteFunctions) (i : nat)
  (log : Log) (urlsString : jsstring) (options : value) :
  getNodeParameter context (js "urls") i = VStr urlsString ->
  parse ContentsOptionsSchema (getNodeParameter context (js "contentsOptions") i)
  = inr options ->
  (parseUrls urlsString = [] <-> forallb isSeparator urlsString = true)
  /\ (forallb isSeparator urlsString = true ->
        executeContents context i log
        = (inl (NodeOperationError (js "At least one URL is required") i), log))
  /\ (forallb isSeparator urlsString = false ->
        snd (executeContents context i log)
        = log ++ [contentsRequest (parseUrls urlsString) options]
        /\ forall msg k,
             fst (executeContents context i log) <> inl (NodeOperationError msg k)).
Proof.
  intros Hurls Hopts. split; [apply parseUrls_nil_iff|]. split.
  - intros H. apply parseUrls_nil_iff in H.
    unfold executeContents, bind, lift. rewrite Hopts, Hurls. unfold ret.
    now rewrite H.
  - intros H.
    assert (Hne : parseUrls urlsString <> []).
    { intros E. apply parseUrls_nil_iff in E. congruence. }
    split; [now apply executeContents_request|].
    intros msg k. unfold executeContents, bind, lift. rewrite Hopts, Hurls.
    unfold ret. destruct (parseUrls urlsString) as [|u us]; [contradiction|].
    change (length (u :: us) =? 0) with false. cbv iota. unfold httpRequest.
    destruct (httpRequestWithAuthentication context log (js "youDotComApi")
                (contentsRequest (u :: us) options)); [discriminate|].
    destruct (parse ContentsResponseSchema v) as [e|out] eqn:E; [|discriminate].
    simpl. intros H'. injection H' as ->.
    destruct (parse_failure _ v _ sound_ContentsResponseSchema E)
      as [iss [He _]]. discriminate.
Qed.


(* ================================================================== *)
(** ** What the options schemas accept *)

Lemma isInteger_iff (q : Q) :
  isInteger (Finite q) = true <-> exists z, Qeq q (inject_Z z).
Proof.
  unfold isInteger. rewrite Z.eqb_eq. split.
  - intros H. exists (Qnum q / Z.pos (Qden q))%Z. unfold Qeq. simpl.
    rewrite Z.mul_1_r. rewrite Z.mul_comm.
    apply Z.div_exact; [discriminate|exact H].
  - intros [z H]. unfold Qeq in H. simpl in H. rewrite Z.mul_1_r in H.
    rewrite H. apply Z.mod_mul. discriminate.
Qed.

Lemma num_lt_iff (q : Q) (z bound : Z) :
  Qeq q (inject_Z z) -> (num_lt (Finite q) bound = false <-> (bound <= z)%Z).
Proof.
  intros H. unfold num_lt. rewrite negb_false_iff, Qle_bool_iff, H.
  now rewrite <- Zle_Qle.
Qed.

Lemma num_gt_iff (q : Q) (z bound : Z) :
  Qeq q (inject_Z z) -> (num_gt (Finite q) bound = false <-> (z <= bound)%Z).
Proof.
  intros H. unfold num_gt. rewrite negb_false_iff, Qle_bool_iff, H.
  now rewrite <- Zle_Qle.
Qed.

Lemma integer_rule_iff (lo hi : Z) (p : list PathSeg) (v : value) :
  status (optional (z_number [Int; Min lo; Max hi]) p v) = valid
  <-> optionalInteger lo hi v.
Proof.
  unfold optionalInteger. split.
  - destruct v as [| | |n| | |]; simpl; try discriminate; [now left|].
    destruct n as [q| |neg]; simpl; try discriminate.
    destruct (Z.eqb _ 0) eqn:Ei; simpl;
      destruct (negb (Qle_bool (inject_Z lo) q)) eqn:El; simpl;
      destruct (negb (Qle_bool q (inject_Z hi))) eqn:Eh; simpl;
      try discriminate.
    intros _. right.
    destruct (proj1 (isInteger_iff q) Ei) as [z Hz].
    exists q, z. split; [reflexivity|]. split; [exact Hz|]. split.
    + now apply (num_lt_iff q z lo Hz).
    + now apply (num_gt_iff q z hi Hz).
  - intros [->|[q [z [-> [Hz [Hlo Hhi]]]]]]; [reflexivity|].
    assert (Ei : isInteger (Finite q) = true) by (apply isInteger_iff; now exists z).
    assert (El : num_lt (Finite q) lo = false) by now apply (num_lt_iff q z lo Hz).
    assert (Eh : num_gt (Finite q) hi = false) by now apply (num_gt_iff q z hi Hz).
    unfold optional, z_number, failedCheck. cbn [flat_map].
    now rewrite Ei, El, Eh.
Qed.

Lemma string_rule_iff (p : list PathSeg) (v : value) :
  status (optional (z_string false) p v) = valid <-> optionalString v.
Proof.
  unfold optionalString. split.
  - destruct v; simpl; try discriminate; [now left|]. intros _. right. now exists s.
  - intros [->|[s ->]]; reflexivity.
Qed.

Lemma existsb_eqb_In (s : jsstring) (values : list jsstring) :
  existsb (eqb s) values = true <-> In s values.
Proof.
  rewrite existsb_exists. split.
  - intros [x [Hin Hx]]. apply eqb_eq in Hx. now subst.
  - intros H. exists s. split; [exact H|apply eqb_refl].
Qed.

Lemma member_iff (values : list jsstring) (p : list PathSeg) (v : value) :
  status (z_enum values p v) = valid <-> exists s, v = VStr s /\ In s values.
Proof.
  split.
  - destruct v; simpl; try discriminate.
    destruct (existsb (eqb s) values) eqn:E; simpl; [|discriminate].
    intros _. exists s. split; [reflexivity|now apply existsb_eqb_In].
  - intros [s [-> H]]. simpl. apply existsb_eqb_In in H. now rewrite H.
Qed.

Lemma enum_rule_iff (values : list jsstring) (p : list PathSeg) (v : value) :
  status (optional (z_enum values) p v) = valid <-> optionalOneOf values v.
Proof.
  unfold optionalOneOf. destruct v;
    try (change (optional (z_enum values) p ?x) with (z_enum values p x);
         rewrite member_iff; split;
         [intros H; now right|intros [H|H]; [discriminate|exact H]]).
  split; [now left|reflexivity].
Qed.

Lemma Forall_mapi_from_iff {A : Type} (P : A -> Prop) (Q' : ParseReturn -> Prop)
  (f : A -> nat -> ParseReturn) (l : list A) (i : nat) :
  (forall x j, Q' (f x j) <-> P x) ->
  (Forall Q' (mapi_from i f l) <-> Forall P l).
Proof.
  intros H. revert i. induction l as [|x l IH]; intros i; simpl.
  - split; constructor.
  - split; intros H'; inversion H'; subst; constructor;
      try (now apply (H x i)); now apply (IH (S i)).
Qed.

Lemma list_rule_iff (values : list jsstring) (p : list PathSeg) (v : value) :
  status (optional (z_array (z_enum values)) p v) = valid
  <-> optionalListOf values v.
Proof.
  unfold optionalListOf. destruct v;
    try (split; [simpl; discriminate|intros [H|[items [H _]]]; discriminate]).
  - split; [now left|reflexivity].
  - change (optional (z_array (z_enum values)) p (VArr items))
      with (mergeArray (mapi (fun item j => z_enum values (p ++ [Index j]) item)
                             items)).
    rewrite mergeArray_valid. unfold mapi.
    rewrite (Forall_mapi_from_iff
               (fun item => exists s, item = VStr s /\ In s values)).
    + split; [intros H; right; now exists items|].
      intros [H|[items' [H H']]]; [discriminate|]. now injection H as ->.
    + intros x j. apply member_iff.
Qed.

Lemma parse_accepts_iff (s : ZodType) (data : value) :
  (exists out, parse s data = inr out) <-> status (s [] data) = valid.
Proof.
  split.
  - intros [out H]. now apply parse_success in H.
  - intros H. exists (output (s [] data)). apply parse_success. now split.
Qed.

(** X1. The search options are accepted exactly when they are a record whose
    count is absent or an integer from 1 to 100, whose offset is absent or
    an integer from 0 to 9, whose country and language are absent or
    strings, and whose freshness, livecrawl, livecrawl_formats and
    safesearch are absent or one of their declared strings. *)
Theorem search_options_accepted_iff (raw : value) :
  (exists options, parse SearchOptionsSchema raw = inr options)
  <-> exists fields,
        raw = VObj fields
        /\ optionalInteger 1 100 (get (js "count") fields)
        /\ optionalString (get (js "country") fields)
        /\ optionalOneOf [js "day"; js "week"; js "month"; js "year"]
             (get (js "freshness") fields)
        /\ optionalString (get (js "language") fields)
        /\ optionalOneOf [js "web"; js "news"; js "all"]
             (get (js "livecrawl") fields)
        /\ optionalOneOf [js "html"; js "markdown"]
             (get (js "livecrawl_formats") fields)
        /\ optionalInteger 0 9 (get (js "offset") fields)
        /\ optionalOneOf [js "off"; js "moderate"; js "strict"]
             (get (js "safesearch") fields).
Proof.
  rewrite parse_accepts_iff. destruct raw;
    try (split; [simpl; discriminate|intros [fields [H _]]; discriminate]).
  unfold SearchOptionsSchema. rewrite z_object_valid_iff.
  unfold SearchOptionsShape. rewrite !Forall_cons_iff. cbn [fst snd].
  rewrite !integer_rule_iff, !string_rule_iff, !enum_rule_iff.
  split.
  - intros H. exists fields. split; [reflexivity|]. tauto.
  - intros [fields' [H H']]. injection H as <-.
    repeat split; try tauto. constructor.
Qed.

(** X2. The contents options are accepted exactly when they are a record
    whose formats is absent or an array of the strings markdown, html and
    metadata (the empty array included) and whose crawl_timeout is absent
    or an integer from 1 to 60. *)
Theorem contents_options_accepted_iff (raw : value) :
  (exists options, parse ContentsOptionsSchema raw = inr options)
  <-> exists fields,
        raw = VObj fields
        /\ optionalListOf [js "markdown"; js "html"; js "metadata"]
             (get (js "formats") fields)
        /\ optionalInteger 1 60 (get (js "crawl_timeout") fields).
Proof.
  rewrite parse_accepts_iff. destruct raw;
    try (split; [simpl; discriminate|intros [fields [H _]]; discriminate]).
  unfold ContentsOptionsSchema. rewrite z_object_valid_iff.
  unfold ContentsOptionsShape. rewrite !Forall_cons_iff. cbn [fst snd].
  rewrite integer_rule_iff, list_rule_iff.
  split.
  - intros H. exists fields. split; [reflexivity|]. tauto.
  - intros [fields' [H H']]. injection H as <-.
    repeat split; try tauto. constructor.
Qed.

(** X3. Of the values the configuration form offers for an enumerated search
    option, the options validate exactly for those that are not the empty
    string: the empty choices of freshness ("Any Time") and livecrawl
    ("None") are refused, every other choice of the four options is
    accepted. *)
Theorem form_choice_accepted_iff (k : jsstring) (choices : list jsstring)
  (choice : jsstring) :
  In (k, choices) enumeratedChoices -> In choice choices ->
  ((exists options,
      parse SearchOptionsSchema (VObj [(k, VStr choice)]) = inr options)
   <-> choice <> []).
Proof.
  intros Hk Hc. unfold enumeratedChoices in Hk. simpl in Hk.
  destruct Hk as [Hk|[Hk|[Hk|[Hk|[]]]]]; injection Hk as <- <-; simpl in Hc;
    repeat (destruct Hc as [<-|Hc]; [|]); try contradiction;
    (split;
     [ first [ intros _; discriminate
             | intros [options H]; vm_compute in H; discriminate H ]
     | first [ intros _; eexists; vm_compute; reflexivity
             | intros H; exfalso; apply H; reflexivity ] ]).
Qed.





(* ================================================================== *)
(** ** The stages of one item *)

Lemma violates_parse (shape : list (jsstring * ZodType)) (raw : value) :
  Forall (fun ks => fst ks <> [] /\ sound (snd ks)) shape ->
  violates shape raw ->
  exists iss, parse (z_object shape strip) raw = inl (ZodError iss) /\ iss <> [].
Proof.
  intros Hshape Hbad.
  destruct (parse (z_object shape strip) raw) as [e|out] eqn:Hparse.
  - destruct (parse_failure _ raw e (sound_z_object shape strip Hshape) Hparse)
      as [iss [-> [_ [Hne _]]]].
    now exists iss.
  - exfalso. apply parse_success in Hparse as [Hv _].
    destruct raw; try discriminate.
    destruct Hbad as [k [s [Hin Hbad]]]. apply Hbad.
    pose proof (proj1 (z_object_valid_iff shape strip [] fields) Hv) as Hall.
    rewrite Forall_forall in Hall. exact (Hall (k, s) Hin).
Qed.

(** X4. Options that violate their schema stop the item before anything is
    requested: the item throws a validation error with at least one
    violation and the request log is unchanged.  For the contents
    operation this holds whatever the URL string is, so the validation
    error comes before the error of an empty URL list. *)
Theorem invalid_options_send_nothing (context : IExecuteFunctions) (i : nat)
  (log : Log) :
  (getNodeParameter context (js "operation") i = VStr (js "search")
   /\ violates SearchOptionsShape (getNodeParameter context (js "searchOptions") i))
  \/ (getNodeParameter context (js "operation") i = VStr (js "contents")
      /\ violates ContentsOptionsShape
           (getNodeParameter context (js "contentsOptions") i)) ->
  exists iss,
    tryItem context i log = (inl (ZodError iss), log) /\ iss <> [].
Proof.
  intros [[Hop Hbad]|[Hop Hbad]].
  - destruct (violates_parse _ _ (options_shapes_sound _ (or_introl eq_refl)) Hbad)
      as [iss [Hp Hne]].
    exists iss. split; [|exact Hne]. unfold tryItem. rewrite Hop.
    change (isString (VStr (js "search")) (js "search")) with true. cbv iota.
    unfold bind at 1. unfold executeSearch, bind, lift.
    unfold SearchOptionsSchema. now rewrite Hp.
  - destruct (violates_parse _ _ (options_shapes_sound _ (or_intror eq_refl)) Hbad)
      as [iss [Hp Hne]].
    exists iss. split; [|exact Hne]. unfold tryItem. rewrite Hop.
    change (isString (VStr (js "contents")) (js "search")) with false.
    change (isString (VStr (js "contents")) (js "contents")) with true.
    cbv iota. unfold bind at 1. unfold executeContents, bind, lift.
    unfold ContentsOptionsSchema. now rewrite Hp.
Qed.

Lemma has_set_keep (k k' : jsstring) (v : value) (obj : list (jsstring * value)) :
  has k obj = true -> has k (set k' v obj) = true.
Proof.
  induction obj as [|[k'' v''] rest IH]; simpl; [discriminate|].
  intros H. destruct (eqb k' k''); simpl.
  - exact H.
  - apply orb_true_iff in H as [H|H]; [now rewrite H|].
    rewrite (IH H). apply orb_true_r.
Qed.

Lemma has_assignIf_keep (c : bool) (k k' : jsstring) (v : value)
  (obj : list (jsstring * value)) :
  has k obj = true -> has k (assignIf c k' v obj) = true.
Proof. intros H. destruct c; simpl; [now apply has_set_keep|exact H]. Qed.

Lemma searchRequest_shaped (query options : value) :
  nodeRequest (searchRequest query options).
Proof.
  split; [reflexivity|]. split; [reflexivity|]. left.
  split; [reflexivity|]. split; [reflexivity|]. split; [reflexivity|].
  eexists. split; [reflexivity|]. unfold searchQs.
  repeat apply has_assignIf_keep. reflexivity.
Qed.

Lemma contentsRequest_shaped (urlsString : jsstring) (options : value) :
  parseUrls urlsString <> [] ->
  nodeRequest (contentsRequest (parseUrls urlsString) options).
Proof.
  intros Hne. split; [reflexivity|]. split; [reflexivity|]. right.
  split; [reflexivity|]. split; [reflexivity|]. split; [reflexivity|].
  eexists. exists (parseUrls urlsString). split; [reflexivity|].
  split; [|split; [exact Hne|]].
  - unfold contentsBody, assignIf.
    destruct (truthy _ && lengthPositive _), (truthy (prop options (js "crawl_timeout")));
      rewrite ?get_set; reflexivity.
  - eapply Forall_impl; [|apply parseUrls_clean]. now intros u [H _].
Qed.

(** What one item does to the request log: nothing, or one request of
    the node's making. *)
Lemma tryItem_log (context : IExecuteFunctions) (i : nat) (log : Log)
  (r : Thrown + list INodeExecutionData) (log' : Log) :
  tryItem context i log = (r, log') ->
  log' = log \/ exists request, log' = log ++ [request] /\ nodeRequest request.
Proof.
  unfold tryItem.
  destruct (isString _ (js "search")).
  - unfold bind at 1. unfold executeSearch, bind, lift.
    destruct (parse SearchOptionsSchema _) as [e|options].
    + intros H. injection H as _ <-. now left.
    + unfold httpRequest.
      destruct (httpRequestWithAuthentication context log _ _) as [msg|response].
      * intros H. injection H as _ <-. right. eexists. split; [reflexivity|].
        apply searchRequest_shaped.
      * destruct (parse SearchResponseSchema response); unfold ret;
          intros H; injection H as _ <-; right; eexists;
          (split; [reflexivity|apply searchRequest_shaped]).
  - destruct (isString _ (js "contents")).
    + unfold bind at 1. unfold executeContents, bind, lift.
      destruct (parse ContentsOptionsSchema _) as [e|options].
      * intros H. injection H as _ <-. now left.
      * destruct (getNodeParameter context (js "urls") i) as [| | | |s| |];
          try (unfold throw; intros H; injection H as _ <-; now left).
        unfold ret. destruct (parseUrls s) as [|u us] eqn:E.
        { unfold throw. simpl. intros H. injection H as _ <-. now left. }
        change (length (u :: us) =? 0) with false. cbv iota.
        assert (Hshape : nodeRequest (contentsRequest (u :: us) options)).
        { rewrite <- E. apply contentsRequest_shaped. rewrite E. discriminate. }
        unfold httpRequest.
        destruct (httpRequestWithAuthentication context log (js "youDotComApi")
                    (contentsRequest (u :: us) options)) as [msg|response].
        { intros H. injection H as _ <-. right. eexists. now split. }
        destruct (parse ContentsResponseSchema response);
          intros H; injection H as _ <-; right; eexists; now split.
    + unfold ret. intros H. injection H as _ <-. now left.
Qed.

(** X6. An item that gives records got them from a response the upstream
    sent and the response schema accepted: for a known operation exactly
    one request was issued, its answer validates, and the records are the
    host's wrapping of the validated answer.  For any other operation there
    is no record and no request. *)
Theorem records_come_from_validated_response (context : IExecuteFunctions)
  (i : nat) (log : Log) (records : list INodeExecutionData) (log' : Log) :
  tryItem context i log = (inr records, log') ->
  (isString (getNodeParameter context (js "operation") i) (js "search") = false
   /\ isString (getNodeParameter context (js "operation") i) (js "contents") = false
   /\ records = [] /\ log' = log)
  \/ exists request response out,
       log' = log ++ [request]
       /\ nodeRequest request
       /\ httpRequestWithAuthentication context log (js "youDotComApi") request
          = inr response
       /\ records
          = constructExecutionMetaData context (returnJsonArray context out) i
       /\ ((isString (getNodeParameter context (js "operation") i) (js "search")
            = true
            /\ parse SearchResponseSchema response = inr out)
           \/ (isString (getNodeParameter context (js "operation") i)
                 (js "contents") = true
               /\ parse ContentsResponseSchema response = inr out)).
Proof.
  unfold tryItem.
  destruct (isString _ (js "search")) eqn:Es.
  - unfold bind at 1. unfold executeSearch, bind, lift.
    destruct (parse SearchOptionsSchema _) as [e|options]; [discriminate|].
    unfold httpRequest.
    destruct (httpRequestWithAuthentication context log (js "youDotComApi")
                (searchRequest (getNodeParameter context (js "query") i) options))
      as [msg|response] eqn:Eh; [discriminate|].
    destruct (parse SearchResponseSchema response) as [e|out] eqn:Ep;
      [discriminate|].
    unfold ret. intros H. injection H as <- <-. right.
    exists (searchRequest (getNodeParameter context (js "query") i) options),
      response, out.
    split; [reflexivity|]. split; [apply searchRequest_shaped|].
    split; [exact Eh|]. split; [reflexivity|]. left. now split.
  - destruct (isString _ (js "contents")) eqn:Ec.
    + unfold bind at 1. unfold executeContents, bind, lift.
      destruct (parse ContentsOptionsSchema _) as [e|options]; [discriminate|].
      destruct (getNodeParameter context (js "urls") i) as [| | | |s| |];
        try discriminate.
      unfold ret. destruct (parseUrls s) as [|u us] eqn:E; [discriminate|].
      change (length (u :: us) =? 0) with false. cbv iota.
      assert (Hshape : nodeRequest (contentsRequest (u :: us) options)).
      { rewrite <- E. apply contentsRequest_shaped. rewrite E. discriminate. }
      unfold httpRequest.
      destruct (httpRequestWithAuthentication context log (js "youDotComApi")
                  (contentsRequest (u :: us) options)) as [msg|response] eqn:Eh;
        [discriminate|].
      destruct (parse ContentsResponseSchema response) as [e|out] eqn:Ep;
        [discriminate|].
      intros H. injection H as <- <-. right.
      exists (contentsRequest (u :: us) options), response, out.
      split; [reflexivity|]. split; [exact Hshape|].
      split; [exact Eh|]. split; [reflexivity|]. right. now split.
    + unfold ret. intros H. injection H as <- <-. left. now repeat split.
Qed.


(* ================================================================== *)
(** ** The whole batch *)

Lemma executeLoop_log (context : IExecuteFunctions) (n i : nat)
  (data : list INodeExecutionData) (log : Log) (c : Completion) (log' : Log) :
  executeLoop context n i data log = (c, log') ->
  exists extra,
    log' = log ++ extra /\ length extra <= n /\ Forall nodeRequest extra.
Proof.
  revert i data log c log'.
  induction n as [|n IH]; intros i data log c log'; simpl.
  - intros H. injection H as _ <-. exists []. rewrite app_nil_r.
    repeat split; [simpl; lia|constructor].
  - destruct (tryItem context i log) as [r log0] eqn:Et.
    assert (Hstep : exists extra0, log0 = log ++ extra0 /\ length extra0 <= 1
                                   /\ Forall nodeRequest extra0).
    { destruct (tryItem_log context i log r log0 Et) as [->|[request [-> Hr]]].
      - exists []. rewrite app_nil_r. repeat split; [simpl; lia|constructor].
      - exists [request]. repeat split; [simpl; lia|]. now constructor. }
    destruct Hstep as [extra0 [-> [Hlen0 Hall0]]].
    assert (Hrest : forall d c' l',
               executeLoop context n (S i) d (log ++ extra0) = (c', l') ->
               exists extra, l' = log ++ extra /\ length extra <= S n
                             /\ Forall nodeRequest extra).
    { intros d c' l' H. destruct (IH _ _ _ _ _ H) as [extra [-> [Hlen Hall]]].
      exists (extra0 ++ extra). rewrite app_assoc. split; [reflexivity|].
      split; [rewrite length_app; lia|]. apply Forall_app. now split. }
    destruct r as [error|executionData].
    + destruct (continueOnFail context); [apply Hrest|].
      intros H. injection H as _ <-. exists extra0.
      repeat split; [lia|exact Hall0].
    + apply Hrest.
Qed.

(** X7. A batch issues at most one request per input item. *)
Theorem at_most_one_request_per_item (context : IExecuteFunctions) :
  length (snd (execute context)) <= length (getInputData context).
Proof.
  unfold execute.
  destruct (executeLoop context (length (getInputData context)) 0 [] [])
    as [c log] eqn:E.
  destruct (executeLoop_log context _ _ _ _ c log E) as [extra [-> [Hlen _]]].
  exact Hlen.
Qed.

(** X8. Every request of a batch is one of the two requests of the node: it
    carries the User-Agent header and the JSON flag, and is a GET to the
    search endpoint with a query string that holds [query] and no body, or
    a POST to the contents endpoint with no query string and a body whose
    [urls] is a list of at least one URL, none of them empty. *)
Theorem every_request_is_of_the_node (context : IExecuteFunctions) :
  Forall nodeRequest (snd (execute context)).
Proof.
  unfold execute.
  destruct (executeLoop context (length (getInputData context)) 0 [] [])
    as [c log] eqn:E.
  destruct (executeLoop_log context _ _ _ _ c log E) as [extra [-> [_ Hall]]].
  exact Hall.
Qed.

(** X9. With the continuation flag set the batch never throws: every item
    is processed and a list of records is returned. *)
Theorem continue_never_throws (context : IExecuteFunctions) :
  continueOnFail context = true ->
  exists returnData log, execute context = (Returned returnData, log).
Proof. intros H. now apply executeLoop_continue. Qed.

Lemma itemIndex_apiError (error : Thrown) (i : nat) :
  itemIndex (apiError error i) = i.
Proof. now destruct error. Qed.

Lemma executeLoop_threw (context : IExecuteFunctions) (n i : nat)
  (data : list INodeExecutionData) (log : Log) (e : NodeApiError) (log' : Log) :
  executeLoop context n i data log = (Threw e, log') ->
  continueOnFail context = false
  /\ exists k before log0 error,
       itemIndex e = i + k /\ k < n
       /\ executeLoop context k i data log = (Returned before, log0)
       /\ tryItem context (i + k) log0 = (inl error, log')
       /\ e = apiError error (i + k).
Proof.
  revert i data log e log'.
  induction n as [|n IH]; intros i data log e log'; simpl; [discriminate|].
  destruct (tryItem context i log) as [[error|executionData] log0] eqn:Et.
  - destruct (continueOnFail context) eqn:Ec.
    + intros H.
      destruct (executeLoop_continue context n (S i)
                  (data ++ [errorRecord error i]) log0 Ec)
        as [after [l Hafter]]. congruence.
    + intros H. injection H as <- <-. split; [reflexivity|].
      exists 0, data, log, error. rewrite Nat.add_0_r.
      repeat split; try assumption; try lia. apply itemIndex_apiError.
  - intros H. destruct (IH _ _ _ _ _ H)
      as [Hc [k [before [l0 [error [Hidx [Hk [Hbefore [Htry He]]]]]]]]].
    split; [exact Hc|].
    exists (S k), before, l0, error.
    replace (i + S k) with (S i + k) by lia.
    repeat split; try assumption; try lia.
    simpl. now rewrite Et.
Qed.

(** X10. A batch that throws does so only without the continuation flag and
    only because of a failed item: the index carried by the error is the
    index of an input item, all items before it were processed without an
    error, that item's [try] block threw, and the thrown error is the one
    built from it. *)
Theorem abort_comes_from_failed_item (context : IExecuteFunctions)
  (e : NodeApiError) (log : Log) :
  execute context = (Threw e, log) ->
  continueOnFail context = false
  /\ itemIndex e < length (getInputData context)
  /\ exists before log0 error,
       executeLoop context (itemIndex e) 0 [] [] = (Returned before, log0)
       /\ tryItem context (itemIndex e) log0 = (inl error, log)
       /\ e = apiError error (itemIndex e).
Proof.
  unfold execute. intros H.
  destruct (executeLoop_threw context _ _ _ _ e log H)
    as [Hc [k [before [log0 [error [Hidx [Hk [Hbefore [Htry He]]]]]]]]].
  simpl in *. subst k. split; [exact Hc|]. split; [exact Hk|].
  now exists before, log0, error.
Qed.

Lemma executeLoop_withContinue (context : IExecuteFunctions) (b : bool)
  (n i : nat) (data returnData : list INodeExecutionData) (log log' : Log) :
  continueOnFail context = false ->
  executeLoop context n i data log = (Returned returnData, log') ->
  executeLoop (withContinue b context) n i data log = (Returned returnData, log').
Proof.
  intros Hc. revert i data log returnData log'.
  induction n as [|n IH]; intros i data log returnData log'; simpl; [trivial|].
  change (tryItem (withContinue b context) i log) with (tryItem context i log).
  destruct (tryItem context i log) as [[error|executionData] log0].
  - rewrite Hc. discriminate.
  - apply IH.
Qed.

(** X11. The continuation flag matters only when an item fails: a batch that
    returns without the flag returns the same records, after the same
    requests, with the flag. *)
Theorem flag_is_irrelevant_without_failure (context : IExecuteFunctions)
  (returnData : list INodeExecutionData) (log : Log) :
  continueOnFail context = false ->
  execute context = (Returned returnData, log) ->
  execute (withContinue true context) = (Returned returnData, log).
Proof.
  intros Hc H. unfold execute in *.
  now apply executeLoop_withContinue.
Qed.


(* ================================================================== *)
(** ** Where a rejected response is reported *)

Lemma issue_in_object (shape : list (jsstring * ZodType))
  (unknownKeys : UnknownKeys) (p : list PathSeg)
  (fields : list (jsstring * value)) (k : jsstring) (s : ZodType)
  (issue : ZodIssue) :
  In (k, s) shape ->
  In issue (issues (s (p ++ [Key k]) (get k fields))) ->
  In issue (issues (z_object shape unknownKeys p (VObj fields))).
Proof.
  intros Hin Hissue. unfold z_object.
  rewrite mergeObjectSync_issues, flat_map_app. apply in_or_app. left.
  rewrite flat_map_map. apply in_flat_map. exists (k, s). now split.
Qed.

Lemma issue_in_array (element : ZodType) (p : list PathSeg) (items : list value)
  (i : nat) (item : value) (issue : ZodIssue) :
  nth_error items i = Some item ->
  In issue (issues (element (p ++ [Index i]) item)) ->
  In issue (issues (z_array element p (VArr items))).
Proof.
  intros Hnth Hissue. unfold z_array. rewrite mergeArray_issues.
  apply in_flat_map. exists (element (p ++ [Index i]) item). split; [|exact Hissue].
  eapply nth_error_In. unfold mapi.
  exact (nth_error_mapi_from
           (fun item j => element (p ++ [Index j]) item) items 0 i item Hnth).
Qed.

Lemma parse_issue (s : ZodType) (data : value) (issue : ZodIssue) :
  sound s -> In issue (issues (s [] data)) ->
  exists iss, parse s data = inl (ZodError iss) /\ In issue iss.
Proof.
  intros Hs Hin. destruct (parse s data) as [e|out] eqn:E.
  - destruct (parse_failure s data e Hs E) as [iss [-> [-> _]]].
    now exists (issues (s [] data)).
  - exfalso. apply parse_success in E as [Hv _].
    apply (proj1 (Hs [] data)) in Hv. rewrite Hv in Hin. contradiction.
Qed.

Lemma z_string_not_string (url : bool) (p : list PathSeg) (v : value) :
  (forall s, v <> VStr s) ->
  issues (z_string url p v) = [addIssue invalid_type p v].
Proof.
  intros H. destruct v; try reflexivity. exfalso. now apply (H s).
Qed.

(** X15. A web or news result whose url, title or description is missing or
    is not a string makes the search response fail validation, with a
    violation at the path results, the section, the index of the result and
    the name of the field, joined by dots in the message. *)
Theorem result_field_violation_path (fields rfields : list (jsstring * value))
  (section : jsstring) (items : list value) (i : nat)
  (result : list (jsstring * value)) (k : jsstring) :
  get (js "results") fields = VObj rfields ->
  In section [js "web"; js "news"] ->
  get section rfields = VArr items ->
  nth_error items i = Some (VObj result) ->
  In k [js "url"; js "title"; js "description"] ->
  (forall s, get k result <> VStr s) ->
  exists iss,
    parse SearchResponseSchema (VObj fields) = inl (ZodError iss)
    /\ In (addIssue invalid_type
             [Key (js "results"); Key section; Index i; Key k] (get k result))
          iss
    /\ joinPath [Key (js "results"); Key section; Index i; Key k]
       = js "results" ++ [dot] ++ section ++ [dot] ++ ofNat i ++ [dot] ++ k.
Proof.
  intros Hr Hsec Hitems Hnth Hk Hbad.
  assert (Hin : In (addIssue invalid_type
                      [Key (js "results"); Key section; Index i; Key k]
                      (get k result))
                   (issues (SearchResponseSchema [] (VObj fields)))).
  { unfold SearchResponseSchema.
    eapply issue_in_object; [left; reflexivity|]. rewrite Hr.
    destruct Hsec as [<-|[<-|[]]].
    - eapply issue_in_object; [left; reflexivity|]. rewrite Hitems.
      change (optional (z_array WebResultSchema) ?p (VArr items))
        with (z_array WebResultSchema p (VArr items)).
      eapply issue_in_array; [exact Hnth|]. unfold WebResultSchema.
      destruct Hk as [<-|[<-|[<-|[]]]].
      + eapply issue_in_object; [left; reflexivity|].
        rewrite (z_string_not_string _ _ _ Hbad). now left.
      + eapply issue_in_object; [right; left; reflexivity|].
        rewrite (z_string_not_string _ _ _ Hbad). now left.
      + eapply issue_in_object; [right; right; left; reflexivity|].
        rewrite (z_string_not_string _ _ _ Hbad). now left.
    - eapply issue_in_object; [right; left; reflexivity|]. rewrite Hitems.
      change (optional (z_array NewsResultSchema) ?p (VArr items))
        with (z_array NewsResultSchema p (VArr items)).
      eapply issue_in_array; [exact Hnth|]. unfold NewsResultSchema.
      destruct Hk as [<-|[<-|[<-|[]]]].
      + eapply issue_in_object; [left; reflexivity|].
        rewrite (z_string_not_string _ _ _ Hbad). now left.
      + eapply issue_in_object; [right; left; reflexivity|].
        rewrite (z_string_not_string _ _ _ Hbad). now left.
      + eapply issue_in_object; [right; right; left; reflexivity|].
        rewrite (z_string_not_string _ _ _ Hbad). now left. }
  destruct (parse_issue _ _ _ sound_SearchResponseSchema Hin) as [iss [Hp Hi]].
  exists iss. split; [exact Hp|]. split; [exact Hi|]. reflexivity.
Qed.

(** X16. A contents result whose url is a string that the URL parser refuses
    makes the contents response fail validation, with a violation of kind
    invalid_string at the index of the result and [url]. *)
Theorem contents_result_bad_url_path (items : list value) (i : nat)
  (result : list (jsstring * value)) (u : jsstring) :
  nth_error items i = Some (VObj result) ->
  get (js "url") result = VStr u ->
  isURL u = false ->
  exists iss,
    parse ContentsResponseSchema (VArr items) = inl (ZodError iss)
    /\ In (addIssue invalid_string [Index i; Key (js "url")] (VStr u)) iss
    /\ joinPath [Index i; Key (js "url")] = ofNat i ++ [dot] ++ js "url".
Proof.
  intros Hnth Hu Hbad.
  assert (Hin : In (addIssue invalid_string [Index i; Key (js "url")] (VStr u))
                   (issues (ContentsResponseSchema [] (VArr items)))).
  { unfold ContentsResponseSchema.
    eapply issue_in_array; [exact Hnth|].
    eapply issue_in_object; [left; reflexivity|]. rewrite Hu.
    unfold z_string. rewrite Hbad. now left. }
  destruct (parse_issue _ _ _ sound_ContentsResponseSchema Hin) as [iss [Hp Hi]].
  exists iss. split; [exact Hp|]. split; [exact Hi|]. reflexivity.
Qed.

(** X17. A search answer that is not a record, and a contents answer that is
    not an array, fail validation with a single violation at the root; its
    line of the message reads [1. root:] and the text of the violation. *)
Theorem answer_of_wrong_type_fails_at_root (searchAnswer contentsAnswer : value) :
  (forall fields, searchAnswer <> VObj fields) ->
  (forall items, contentsAnswer <> VArr items) ->
  parse SearchResponseSchema searchAnswer
  = inl (ZodError [addIssue invalid_type [] searchAnswer])
  /\ parse ContentsResponseSchema contentsAnswer
     = inl (ZodError [addIssue invalid_type [] contentsAnswer])
  /\ forall v,
       errorMessage [addIssue invalid_type [] v]
       = js "Validation error:" ++ [LF] ++ js "  1. root: "
         ++ errorMap invalid_type [] v.
Proof.
  intros Hs Hc. split; [|split].
  - destruct searchAnswer; try reflexivity. exfalso. now apply (Hs fields).
  - destruct contentsAnswer; try reflexivity. exfalso. now apply (Hc items).
  - reflexivity.
Qed.


(* ================================================================== *)
(** ** Validation changes no field of a result *)

Lemma isKnown_In (shape : list (jsstring * ZodType)) (k : jsstring) :
  isKnown shape k = true -> exists s, In (k, s) shape.
Proof.
  unfold isKnown. induction shape as [|[k' s'] shape IH]; simpl; [discriminate|].
  intros H. apply orb_true_iff in H as [H|H].
  - apply eqb_eq in H. subst k'. exists s'. now left.
  - destruct (IH H) as [s Hs]. exists s. now right.
Qed.

(** An accepted open record holds, under a key whose rule returns its
    input and under every key that is not declared, the value the input
    had. *)
Lemma z_object_keeps (shape : list (jsstring * ZodType)) (p : list PathSeg)
  (fields : list (jsstring * value)) (k : jsstring) :
  status (z_object shape passthrough p (VObj fields)) = valid ->
  distinct (map fst shape) = true ->
  (forall s, In (k, s) shape -> echo s) ->
  prop (output (z_object shape passthrough p (VObj fields))) k = get k fields.
Proof.
  intros Hv Hd Hecho. destruct (isKnown shape k) eqn:Ek.
  - destruct (isKnown_In shape k Ek) as [s Hin].
    rewrite (z_object_get_known shape passthrough p fields k s Hv Hd Hin).
    apply (Hecho s Hin).
    pose proof (proj1 (z_object_valid_iff shape passthrough p fields) Hv) as Hall.
    rewrite Forall_forall in Hall. exact (Hall (k, s) Hin).
  - exact (z_object_get_unknown shape passthrough p fields k Hv Ek).
Qed.

Lemma object_schema_rejects_others (shape : list (jsstring * ZodType))
  (unknownKeys : UnknownKeys) (p : list PathSeg) (v : value) :
  status (z_object shape unknownKeys p v) = valid -> exists fields, v = VObj fields.
Proof. destruct v; simpl; try discriminate. intros _. now exists fields. Qed.

Lemma array_keeps (shape : list (jsstring * ZodType)) (p : list PathSeg)
  (items : list value) (keys : jsstring -> Prop) :
  distinct (map fst shape) = true ->
  (forall k s, keys k -> In (k, s) shape -> echo s) ->
  status (z_array (z_object shape passthrough) p (VArr items)) = valid ->
  exists outs,
    output (z_array (z_object shape passthrough) p (VArr items)) = VArr outs
    /\ Forall2 (fun item out =>
                  exists fields,
                    item = VObj fields
                    /\ forall k, keys k -> prop out k = get k fields)
               items outs.
Proof.
  intros Hd Hecho Hv. unfold z_array in *.
  rewrite (mergeArray_output _ Hv). eexists. split; [reflexivity|].
  apply mergeArray_valid in Hv. unfold mapi in *.
  generalize dependent 0. induction items as [|item items IH]; intros i Hv;
    simpl in *; [constructor|].
  inversion Hv as [|? ? H1 H2]; subst. constructor; [|now apply IH].
  destruct (object_schema_rejects_others _ _ _ _ H1) as [fields ->].
  exists fields. split; [reflexivity|]. intros k Hk.
  apply z_object_keeps; try assumption. intros s Hin. exact (Hecho k s Hk Hin).
Qed.

(** X18. In a search response that validates, every web and news result comes
    out with every field it came in with, declared or not: under each key
    the validated result holds the value of the upstream's result. *)
Theorem search_results_keep_their_fields (fields rfields : list (jsstring * value))
  (section : jsstring) (items : list value) (out : value) :
  parse SearchResponseSchema (VObj fields) = inr out ->
  get (js "results") fields = VObj rfields ->
  In section [js "web"; js "news"] ->
  get section rfields = VArr items ->
  exists outs,
    prop (prop out (js "results")) section = VArr outs
    /\ Forall2 (fun item result =>
                  exists raw,
                    item = VObj raw /\ forall k, prop result k = get k raw)
               items outs.
Proof.
  intros Hparse Hr Hsec Hitems. apply parse_success in Hparse as [Hv ->].
  unfold SearchResponseSchema in *.
  pose proof (proj1 (z_object_valid_iff SearchResponseShape passthrough [] fields)
                Hv) as Hall.
  rewrite Forall_forall in Hall.
  pose proof (Hall _ (or_introl eq_refl)) as Hres. cbn [fst snd] in Hres.
  rewrite (z_object_get_known SearchResponseShape passthrough [] fields
             (js "results") _ Hv eq_refl (or_introl eq_refl)).
  rewrite Hr in *.
  match type of Hres with
  | status (z_object ?shape passthrough ?p (VObj rfields)) = valid =>
      pose proof (proj1 (z_object_valid_iff shape passthrough p rfields) Hres)
        as Hall';
      rewrite Forall_forall in Hall';
      assert (Hkeep : forall k s, In (k, s) shape ->
                prop (output (z_object shape passthrough p (VObj rfields))) k
                = output (s (p ++ [Key k]) (get k rfields)))
        by (intros k s Hin;
            exact (z_object_get_known shape passthrough p rfields k s Hres
                     eq_refl Hin))
  end.
  destruct Hsec as [<-|[<-|[]]].
  - pose proof (Hall' _ (or_introl eq_refl)) as Hweb. cbn [fst snd] in Hweb.
    rewrite (Hkeep _ _ (or_introl eq_refl)).
    rewrite Hitems in *.
    change (optional (z_array WebResultSchema) ?p (VArr items))
      with (z_array WebResultSchema p (VArr items)) in *.
    unfold WebResultSchema in *.
    match type of Hweb with
    | status (z_array (z_object ?shape passthrough) ?p (VArr items)) = valid =>
        assert (Hecho : forall k s, True -> In (k, s) shape -> echo s)
          by (intros k s _ Hin;
              repeat (destruct Hin as [Hin|Hin];
                      [injection Hin as <- <-; echo_shape|]);
              contradiction);
        destruct (array_keeps shape p items (fun _ => True) eq_refl Hecho Hweb)
          as [outs [Hout Hall2]]
    end.
    exists outs. split; [exact Hout|].
    eapply Forall2_impl; [|exact Hall2].
    intros item o [raw [-> Hk]]. exists raw. split; [reflexivity|].
    intros k. now apply Hk.
  - pose proof (Hall' _ (or_intror (or_introl eq_refl))) as Hnews.
    cbn [fst snd] in Hnews.
    rewrite (Hkeep _ _ (or_intror (or_introl eq_refl))).
    rewrite Hitems in *.
    change (optional (z_array NewsResultSchema) ?p (VArr items))
      with (z_array NewsResultSchema p (VArr items)) in *.
    unfold NewsResultSchema in *.
    match type of Hnews with
    | status (z_array (z_object ?shape passthrough) ?p (VArr items)) = valid =>
        assert (Hecho : forall k s, True -> In (k, s) shape -> echo s)
          by (intros k s _ Hin;
              repeat (destruct Hin as [Hin|Hin];
                      [injection Hin as <- <-; echo_shape|]);
              contradiction);
        destruct (array_keeps shape p items (fun _ => True) eq_refl Hecho Hnews)
          as [outs [Hout Hall2]]
    end.
    exists outs. split; [exact Hout|].
    eapply Forall2_impl; [|exact Hall2].
    intros item o [raw [-> Hk]]. exists raw. split; [reflexivity|].
    intros k. now apply Hk.
Qed.

(** X19. In a contents response that validates, every result comes out with
    its url, markdown and html and with every field that is not declared,
    as the upstream sent them. *)
Theorem contents_results_keep_their_fields (items : list value) (out : value) :
  parse ContentsResponseSchema (VArr items) = inr out ->
  exists outs,
    out = VArr outs
    /\ Forall2 (fun item result =>
                  exists raw,
                    item = VObj raw
                    /\ forall k, k <> js "metadata" -> prop result k = get k raw)
               items outs.
Proof.
  intros Hparse. apply parse_success in Hparse as [Hv ->].
  unfold ContentsResponseSchema in *.
  assert (Hecho : forall k s, k <> js "metadata" ->
                    In (k, s) ContentsResultShape -> echo s).
  { intros k s Hk Hin. unfold ContentsResultShape in Hin.
    destruct Hin as [Hin|[Hin|[Hin|[Hin|[]]]]]; injection Hin as <- <-;
      first [now elim Hk | echo_shape]. }
  destruct (array_keeps ContentsResultShape [] items (fun k => k <> js "metadata")
              eq_refl Hecho Hv) as [outs [Hout Hall]].
  exists outs. split; [exact Hout|exact Hall].
Qed.


(* ================================================================== *)
(** ** How an item can fail *)

(** X5. An item fails in one of five ways.  Before anything is requested:
    its options violate their schema (a validation error with at least one
    violation), its URL string leaves no URL (the operation error), or its
    URL parameter is not a string (the type error of [split]).  After its
    one request: the transport failed (an error with the transport's
    message), or the answer violates the response schema (a validation
    error with at least one violation). *)
Theorem item_failure_kinds (context : IExecuteFunctions) (i : nat) (log : Log)
  (error : Thrown) (log' : Log) :
  tryItem context i log = (inl error, log') ->
  (log' = log
   /\ ((exists iss,
          error = ZodError iss /\ iss <> []
          /\ (parse SearchOptionsSchema
                (getNodeParameter context (js "searchOptions") i) = inl error
              \/ parse ContentsOptionsSchema
                   (getNodeParameter context (js "contentsOptions") i)
                 = inl error))
       \/ error = NodeOperationError (js "At least one URL is required") i
       \/ ((forall s, getNodeParameter context (js "urls") i <> VStr s)
           /\ error
              = Error (splitTypeError (getNodeParameter context (js "urls") i)))))
  \/ exists request,
       log' = log ++ [request]
       /\ nodeRequest request
       /\ ((exists msg,
              httpRequestWithAuthentication context log (js "youDotComApi") request
              = inl msg
              /\ error = Error msg)
           \/ exists response iss,
                httpRequestWithAuthentication context log (js "youDotComApi")
                  request
                = inr response
                /\ error = ZodError iss /\ iss <> []
                /\ (parse SearchResponseSchema response = inl error
                    \/ parse ContentsResponseSchema response = inl error)).
Proof.
  unfold tryItem.
  destruct (isString _ (js "search")).
  - unfold bind at 1. unfold executeSearch, bind, lift.
    destruct (parse SearchOptionsSchema _) as [e|options] eqn:Eo.
    + intros H. injection H as <- <-. left. split; [reflexivity|]. left.
      destruct (parse_failure _ _ _ sound_SearchOptionsSchema Eo)
        as [iss [-> [_ [Hne _]]]].
      exists iss. repeat split; try assumption. now left.
    + unfold httpRequest.
      destruct (httpRequestWithAuthentication context log (js "youDotComApi")
                  (searchRequest (getNodeParameter context (js "query") i) options))
        as [msg|response] eqn:Eh.
      * intros H. injection H as <- <-. right. eexists.
        split; [reflexivity|]. split; [apply searchRequest_shaped|].
        left. now exists msg.
      * destruct (parse SearchResponseSchema response) as [e|out] eqn:Ep;
          [|discriminate].
        intros H. injection H as <- <-. right. eexists.
        split; [reflexivity|]. split; [apply searchRequest_shaped|].
        right. destruct (parse_failure _ _ _ sound_SearchResponseSchema Ep)
          as [iss [-> [_ [Hne _]]]].
        exists response, iss. repeat split; try assumption. now left.
  - destruct (isString _ (js "contents")); [|discriminate].
    unfold bind at 1. unfold executeContents, bind, lift.
    destruct (parse ContentsOptionsSchema _) as [e|options] eqn:Eo.
    + intros H. injection H as <- <-. left. split; [reflexivity|]. left.
      destruct (parse_failure _ _ _ sound_ContentsOptionsSchema Eo)
        as [iss [-> [_ [Hne _]]]].
      exists iss. repeat split; try assumption. now right.
    + destruct (getNodeParameter context (js "urls") i) as [| | | |s| |] eqn:Eu;
        try (unfold throw; intros H; injection H as <- <-; left;
             split; [reflexivity|]; right; right;
             split; [intros s; discriminate|reflexivity]).
      unfold ret. destruct (parseUrls s) as [|u us] eqn:E.
      { unfold throw. simpl. intros H. injection H as <- <-. left.
        split; [reflexivity|]. right. now left. }
      change (length (u :: us) =? 0) with false. cbv iota.
      assert (Hshape : nodeRequest (contentsRequest (u :: us) options)).
      { rewrite <- E. apply contentsRequest_shaped. rewrite E. discriminate. }
      unfold httpRequest.
      destruct (httpRequestWithAuthentication context log (js "youDotComApi")
                  (contentsRequest (u :: us) options)) as [msg|response] eqn:Eh.
      * intros H. injection H as <- <-. right. eexists.
        split; [reflexivity|]. split; [exact Hshape|]. left. now exists msg.
      * destruct (parse ContentsResponseSchema response) as [e|out] eqn:Ep;
          [|discriminate].
        intros H. injection H as <- <-. right. eexists.
        split; [reflexivity|]. split; [exact Hshape|]. right.
        destruct (parse_failure _ _ _ sound_ContentsResponseSchema Ep)
          as [iss [-> [_ [Hne _]]]].
        exists response, iss. repeat split; try assumption. now right.
Qed.

End Node.

(* ================================================================== *)
(** ** The theorems on the sample hosts *)

(** An empty country is valid and set, and is not sent. *)
Lemma search_empty_country_counterexample :
  let context :=
    Sample.context (fun _ => Sample.searchItem [(js "country", VStr [])]) 1 false in
  let fields := [(js "country", VStr [])] in
  parse (SearchOptionsSchema Sample.errorMap Sample.isURL)
        (getNodeParameter context (js "searchOptions") 0)
  = inr (VObj fields)
  /\ present (get (js "country") fields) = true
  /\ exists request params,
       snd (executeSearch Sample.errorMap Sample.isURL context 0 []) = [request]
       /\ qs request = Some params
       /\ params = [(js "query", VStr (js "rocq"))]
       /\ has (js "country") params = false
       /\ map fst params
          <> js "query" :: filter (fun k => present (get k fields)) optionalKeys.
Proof.
  intros context fields. split; [reflexivity|]. split; [reflexivity|].
  eexists. eexists. split; [reflexivity|]. split; [reflexivity|].
  split; [reflexivity|]. split; [reflexivity|]. vm_compute. discriminate.
Defined.

Lemma search_request_query_parameters_witness :
  let context :=
    Sample.context
      (fun _ => Sample.searchItem [ (js "count", Sample.num 5);
                                    (js "offset", Sample.num 0);
                                    (js "country", VStr []) ]) 1 false in
  let options := VObj [ (js "count", Sample.num 5);
                        (js "country", VStr []);
                        (js "offset", Sample.num 0) ] in
  parse (SearchOptionsSchema Sample.errorMap Sample.isURL)
        (getNodeParameter context (js "searchOptions") 0)
  = inr options
  /\ exists request,
       snd (executeSearch Sample.errorMap Sample.isURL context 0 []) = [request]
       /\ qs request = Some [ (js "query", VStr (js "rocq"));
                              (js "count", Sample.num 5);
                              (js "offset", Sample.num 0) ].
Proof.
  intros context options.
  assert (H : parse (SearchOptionsSchema Sample.errorMap Sample.isURL)
                (getNodeParameter context (js "searchOptions") 0)
              = inr options) by reflexivity.
  split; [exact H|].
  destruct (search_request_query_parameters Sample.errorMap Sample.isURL
              context 0 [] options H) as [fields [Hraw [Hreq _]]].
  injection Hraw as <-. eexists. split; [exact Hreq|reflexivity].
Defined.

Lemma failed_item_policy_witness :
  let context := Sample.context Sample.batch3 3 true in
  let before := Sample.metaData (Sample.jsonArray Sample.searchResponse) 0 in
  let log := [searchRequest (VStr (js "rocq")) (VObj [])] in
  let error :=
    ZodError [addIssue Sample.errorMap too_small [Key (js "count")] (Sample.num 0)] in
  1 < length (getInputData context)
  /\ executeLoop Sample.errorMap Sample.isURL context 1 0 [] []
     = (Returned before, log)
  /\ tryItem Sample.errorMap Sample.isURL context 1 log = (inl error, log)
  /\ pairedItem (errorRecord error 1) = 1
  /\ json (errorRecord error 1)
     = VObj [ (js "error",
                VStr (js "Validation error:" ++ [LF]
                      ++ js "  1. count: Number is too small"));
              (js "validationErrors",
                VArr [ VObj [ (js "path", VStr (js "count"));
                              (js "message", VStr (js "Number is too small"));
                              (js "code", VStr (js "too_small")) ] ]) ]
  /\ exists after log'',
       execute Sample.errorMap Sample.isURL context
       = (Returned (before ++ errorRecord error 1 :: after), log'').
Proof.
  intros context before log error.
  assert (H1 : 1 < length (getInputData context)) by (simpl; lia).
  assert (H2 : executeLoop Sample.errorMap Sample.isURL context 1 0 [] []
               = (Returned before, log)) by reflexivity.
  assert (H3 : tryItem Sample.errorMap Sample.isURL context 1 log
               = (inl error, log)) by reflexivity.
  destruct (failed_item_policy Sample.errorMap Sample.isURL context 1 before log
              error log H1 H2 H3) as [P1 [_ [P3 [_ [_ [_ [P7 _]]]]]]].
  destruct (P7 eq_refl) as [after [log'' [_ Hexec]]].
  destruct (P3 _ eq_refl) as [Hjson _].
  split; [exact H1|]. split; [exact H2|]. split; [exact H3|].
  split; [exact P1|]. split; [rewrite Hjson; reflexivity|].
  now exists after, log''.
Defined.

(** An unknown operation gives neither an error record nor an abort. *)
Lemma unknown_operation_counterexample :
  let context := Sample.context Sample.unknownOperation 1 in
  execute Sample.errorMap Sample.isURL (context false) = (Returned [], [])
  /\ execute Sample.errorMap Sample.isURL (context true) = (Returned [], [])
  /\ ~ (exists error log',
          tryItem Sample.errorMap Sample.isURL (context false) 0 []
          = (inl error, log')).
Proof.
  intros context. split; [reflexivity|]. split; [reflexivity|].
  intros [error [log' H]]. discriminate H.
Defined.

Lemma unknown_operation_is_skipped_witness :
  let context := Sample.context Sample.unknownOperation 1 false in
  isString (getNodeParameter context (js "operation") 0) (js "search") = false
  /\ isString (getNodeParameter context (js "operation") 0) (js "contents") = false
  /\ tryItem Sample.errorMap Sample.isURL context 0 [] = (inr [], []).
Proof.
  intros context. split; [reflexivity|]. split; [reflexivity|].
  apply (unknown_operation_is_skipped Sample.errorMap Sample.isURL context 0 []);
    reflexivity.
Defined.

Lemma empty_url_list_is_operation_error_witness :
  let context := Sample.context (fun _ => Sample.contentsItem "," []) 1 false in
  getNodeParameter context (js "urls") 0 = VStr (js ",")
  /\ parse (ContentsOptionsSchema Sample.errorMap)
           (getNodeParameter context (js "contentsOptions") 0)
     = inr (VObj [])
  /\ parseUrls (js ",") = []
  /\ executeContents Sample.errorMap Sample.isURL context 0 []
     = (inl (NodeOperationError (js "At least one URL is required") 0), []).
Proof.
  intros context. split; [reflexivity|]. split; [reflexivity|].
  split; [reflexivity|].
  apply (empty_url_list_is_operation_error Sample.errorMap Sample.isURL context
           0 [] (js ",") (VObj [])); reflexivity.
Defined.


Lemma validation_message_numbered_lines_witness :
  let context := Sample.context Sample.batch3 3 true in
  let log := [searchRequest (VStr (js "rocq")) (VObj [])] in
  let iss :=
    [addIssue Sample.errorMap too_small [Key (js "count")] (Sample.num 0)] in
  tryItem Sample.errorMap Sample.isURL context 1 log = (inl (ZodError iss), log)
  /\ errorMessage iss
     = js "Validation error:" ++ [LF] ++ js "  1. count: Number is too small"
  /\ exists lines,
       errorMessage iss = js "Validation error:" ++ [LF] ++ join [LF] lines
       /\ length lines = length iss.
Proof.
  intros context log iss.
  assert (H : tryItem Sample.errorMap Sample.isURL context 1 log
              = (inl (ZodError iss), log)) by reflexivity.
  split; [exact H|]. split; [reflexivity|].
  destruct (validation_message_numbered_lines Sample.errorMap Sample.isURL
              context 1 log log iss H) as [lines [Hm [_ [Hl _]]]].
  now exists lines.
Defined.

Lemma response_extra_fields_pass_through_witness :
  let fields := [ (js "results", VObj []); (js "trace_id", Sample.num 7) ] in
  let items := [ [ (js "url", VStr (js "https://a.com"));
                   (js "lang", VStr (js "en")) ] ] in
  get (js "results") fields = VObj []
  /\ get (js "metadata") fields = VUndefined
  /\ Forall (minimalResult Sample.isURL) items
  /\ (exists out,
        parse (SearchResponseSchema Sample.errorMap Sample.isURL) (VObj fields)
        = inr out
        /\ prop out (js "trace_id") = Sample.num 7)
  /\ (exists outs,
        parse (ContentsResponseSchema Sample.errorMap Sample.isURL)
              (VArr (map VObj items))
        = inr (VArr outs)
        /\ Forall2 (fun item out => prop out (js "lang") = get (js "lang") item)
                   items outs).
Proof.
  intros fields items.
  assert (H1 : get (js "results") fields = VObj []) by reflexivity.
  assert (H2 : get (js "metadata") fields = VUndefined) by reflexivity.
  assert (H3 : Forall (minimalResult Sample.isURL) items).
  { constructor; [|constructor]. split; [|repeat split; reflexivity].
    exists (js "https://a.com"). split; reflexivity. }
  destruct (response_extra_fields_pass_through Sample.errorMap Sample.isURL
              fields items H1 H2 H3)
    as [[out [Hs [_ Hk]]] [outs [Hc Hall]]].
  repeat split; try assumption.
  - exists out. split; [exact Hs|]. now rewrite (Hk (js "trace_id") eq_refl).
  - exists outs. split; [exact Hc|].
    eapply Forall2_impl; [|exact Hall]. intros item o [Hk' _].
    exact (Hk' (js "lang") eq_refl).
Defined.

Lemma contents_request_body_witness :
  let context :=
    Sample.context
      (fun _ => Sample.contentsItem "https://a.com, https://b.com ,,  "
                  [ (js "formats", VArr []); (js "crawl_timeout", Sample.num 5) ])
      1 false in
  let options := VObj [ (js "formats", VArr []);
                        (js "crawl_timeout", Sample.num 5) ] in
  let urlsString := js "https://a.com, https://b.com ,,  " in
  getNodeParameter context (js "urls") 0 = VStr urlsString
  /\ parse (ContentsOptionsSchema Sample.errorMap)
           (getNodeParameter context (js "contentsOptions") 0)
     = inr options
  /\ parseUrls urlsString <> []
  /\ exists request payload,
       snd (executeContents Sample.errorMap Sample.isURL context 0 []) = [request]
       /\ body request = Some payload
       /\ has (js "formats") payload = false
       /\ has (js "crawl_timeout") payload = true.
Proof.
  intros context options urlsString.
  assert (H1 : getNodeParameter context (js "urls") 0 = VStr urlsString)
    by reflexivity.
  assert (H2 : parse (ContentsOptionsSchema Sample.errorMap)
                 (getNodeParameter context (js "contentsOptions") 0)
               = inr options) by reflexivity.
  assert (H3 : parseUrls urlsString <> []) by (vm_compute; discriminate).
  destruct (contents_request_body Sample.errorMap Sample.isURL context 0 []
              urlsString options H1 H2 H3)
    as [fields [payload [Hraw [Hreq [_ [Hf [Hc _]]]]]]].
  injection Hraw as <-.
  repeat split; try assumption.
  eexists. exists payload. split; [exact Hreq|]. split; [reflexivity|].
  split; [exact Hf|exact Hc].
Defined.

Lemma country_language_sent_verbatim_witness :
  let fields := [ (js "country", VStr (js "Atlantis")) ] in
  let context := Sample.context (fun _ => Sample.searchItem fields) 1 false in
  getNodeParameter context (js "searchOptions") 0 = VObj fields
  /\ get (js "country") fields = field (Some (js "Atlantis"))
  /\ get (js "language") fields = field None
  /\ exists request,
       snd (executeSearch Sample.errorMap Sample.isURL context 0 []) = [request]
       /\ qs request = Some [ (js "query", VStr (js "rocq"));
                              (js "country", VStr (js "Atlantis")) ].
Proof.
  intros fields context.
  assert (H1 : getNodeParameter context (js "searchOptions") 0 = VObj fields)
    by reflexivity.
  assert (H2 : get (js "country") fields = field (Some (js "Atlantis")))
    by reflexivity.
  assert (H3 : get (js "language") fields = field None) by reflexivity.
  assert (H4 : Some (js "Atlantis") <> Some []) by discriminate.
  assert (H5 : @None jsstring <> Some []) by discriminate.
  assert (H6 : forall k, In k [ js "count"; js "freshness"; js "livecrawl";
                                js "livecrawl_formats"; js "offset";
                                js "safesearch" ] ->
                 get k fields = VUndefined).
  { intros k Hk. simpl in Hk.
    destruct Hk as [<-|[<-|[<-|[<-|[<-|[<-|[]]]]]]]; reflexivity. }
  destruct (country_language_sent_verbatim Sample.errorMap Sample.isURL context
              0 [] fields (Some (js "Atlantis")) None H1 H2 H3 H4 H5 H6)
    as [_ Hreq].
  repeat split; try assumption.
  eexists. split; [exact Hreq|reflexivity].
Defined.

Lemma no_url_iff_only_separators_witness :
  let context := Sample.context (fun _ => Sample.contentsItem " , ," []) 1 false in
  getNodeParameter context (js "urls") 0 = VStr (js " , ,")
  /\ parse (ContentsOptionsSchema Sample.errorMap)
           (getNodeParameter context (js "contentsOptions") 0)
     = inr (VObj [])
  /\ forallb isSeparator (js " , ,") = true
  /\ parseUrls (js " , ,") = [].
Proof.
  intros context.
  assert (H1 : getNodeParameter context (js "urls") 0 = VStr (js " , ,"))
    by reflexivity.
  assert (H2 : parse (ContentsOptionsSchema Sample.errorMap)
                 (getNodeParameter context (js "contentsOptions") 0)
               = inr (VObj [])) by reflexivity.
  assert (H3 : forallb isSeparator (js " , ,") = true) by reflexivity.
  destruct (no_url_iff_only_separators Sample.errorMap Sample.isURL context 0 []
              (js " , ,") (VObj []) H1 H2) as [[_ Hnil] _].
  split; [exact H1|]. split; [exact H2|]. split; [exact H3|]. exact (Hnil H3).
Defined.

Lemma form_choice_accepted_iff_witness :
  let choices := [js ""; js "day"; js "month"; js "week"; js "year"] in
  In (js "freshness", choices) enumeratedChoices
  /\ In (js "day") choices
  /\ In (js "") choices
  /\ (exists options,
        parse (SearchOptionsSchema Sample.errorMap Sample.isURL)
              (VObj [(js "freshness", VStr (js "day"))])
        = inr options)
  /\ ~ (exists options,
          parse (SearchOptionsSchema Sample.errorMap Sample.isURL)
                (VObj [(js "freshness", VStr (js ""))])
          = inr options).
Proof.
  intros choices.
  assert (H1 : In (js "freshness", choices) enumeratedChoices) by now left.
  assert (H2 : In (js "day") choices) by (right; now left).
  assert (H3 : In (js "") choices) by now left.
  repeat split; try assumption.
  - apply (form_choice_accepted_iff Sample.errorMap Sample.isURL
             (js "freshness") choices (js "day") H1 H2). discriminate.
  - intros H.
    apply (proj1 (form_choice_accepted_iff Sample.errorMap Sample.isURL
                    (js "freshness") choices (js "") H1 H3) H).
    reflexivity.
Defined.

Lemma invalid_options_send_nothing_witness :
  let context := Sample.context Sample.batch3 3 true in
  getNodeParameter context (js "operation") 1 = VStr (js "search")
  /\ violates (SearchOptionsShape Sample.errorMap Sample.isURL)
              (getNodeParameter context (js "searchOptions") 1)
  /\ exists iss,
       tryItem Sample.errorMap Sample.isURL context 1 []
       = (inl (ZodError iss), []).
Proof.
  intros context.
  assert (H1 : getNodeParameter context (js "operation") 1 = VStr (js "search"))
    by reflexivity.
  assert (H2 : violates (SearchOptionsShape Sample.errorMap Sample.isURL)
                 (getNodeParameter context (js "searchOptions") 1)).
  { exists (js "count"), (optional (z_number Sample.errorMap [Int; Min 1; Max 100])).
    split; [now left|]. vm_compute. discriminate. }
  destruct (invalid_options_send_nothing Sample.errorMap Sample.isURL context 1 []
              (or_introl (conj H1 H2))) as [iss [Ht _]].
  repeat split; try assumption. now exists iss.
Defined.

Lemma records_come_from_validated_response_witness :
  let context := Sample.context Sample.batch3 3 true in
  let records := Sample.metaData (Sample.jsonArray Sample.searchResponse) 0 in
  let log' := [searchRequest (VStr (js "rocq")) (VObj [])] in
  tryItem Sample.errorMap Sample.isURL context 0 [] = (inr records, log')
  /\ exists request response,
       log' = [] ++ [request]
       /\ httpRequestWithAuthentication context [] (js "youDotComApi") request
          = inr response.
Proof.
  intros context records log'.
  assert (H : tryItem Sample.errorMap Sample.isURL context 0 []
              = (inr records, log')) by reflexivity.
  split; [exact H|].
  destruct (records_come_from_validated_response Sample.errorMap Sample.isURL
              context 0 [] records log' H)
    as [[Hs _]|[request [response [out [Hl [_ [Hh _]]]]]]].
  - discriminate Hs.
  - now exists request, response.
Defined.

Lemma continue_never_throws_witness :
  let context := Sample.context Sample.batch3 3 true in
  continueOnFail context = true
  /\ exists returnData log,
       execute Sample.errorMap Sample.isURL context = (Returned returnData, log).
Proof.
  intros context. split; [reflexivity|].
  apply (continue_never_throws Sample.errorMap Sample.isURL context). reflexivity.
Defined.

Lemma abort_comes_from_failed_item_witness :
  let context := Sample.context Sample.batch3 3 false in
  let log := [searchRequest (VStr (js "rocq")) (VObj [])] in
  let e :=
    apiError
      (ZodError [addIssue Sample.errorMap too_small [Key (js "count")]
                   (Sample.num 0)]) 1 in
  execute Sample.errorMap Sample.isURL context = (Threw e, log)
  /\ continueOnFail context = false
  /\ itemIndex e < length (getInputData context).
Proof.
  intros context log e.
  assert (H : execute Sample.errorMap Sample.isURL context = (Threw e, log))
    by reflexivity.
  destruct (abort_comes_from_failed_item Sample.errorMap Sample.isURL context
              e log H) as [Hc [Hi _]].
  split; [exact H|]. split; [exact Hc|exact Hi].
Defined.

Lemma flag_is_irrelevant_without_failure_witness :
  let context := Sample.context (fun _ => Sample.searchItem []) 2 false in
  let returnData :=
    Sample.metaData (Sample.jsonArray Sample.searchResponse) 0
    ++ Sample.metaData (Sample.jsonArray Sample.searchResponse) 1 in
  let log := [ searchRequest (VStr (js "rocq")) (VObj []);
               searchRequest (VStr (js "rocq")) (VObj []) ] in
  continueOnFail context = false
  /\ execute Sample.errorMap Sample.isURL context = (Returned returnData, log)
  /\ execute Sample.errorMap Sample.isURL (withContinue true context)
     = (Returned returnData, log).
Proof.
  intros context returnData log.
  assert (H1 : continueOnFail context = false) by reflexivity.
  assert (H2 : execute Sample.errorMap Sample.isURL context
               = (Returned returnData, log)) by reflexivity.
  split; [exact H1|]. split; [exact H2|].
  exact (flag_is_irrelevant_without_failure Sample.errorMap Sample.isURL context
           returnData log H1 H2).
Defined.

Lemma result_field_violation_path_witness :
  let result := [ (js "url", VStr (js "https://a.com"));
                  (js "title", VStr (js "A")) ] in
  let rfields := [ (js "web", VArr [VObj result]) ] in
  let fields := [ (js "results", VObj rfields) ] in
  get (js "results") fields = VObj rfields
  /\ get (js "web") rfields = VArr [VObj result]
  /\ nth_error [VObj result] 0 = Some (VObj result)
  /\ (forall s, get (js "description") result <> VStr s)
  /\ exists iss,
       parse (SearchResponseSchema Sample.errorMap Sample.isURL) (VObj fields)
       = inl (ZodError iss)
       /\ In (addIssue Sample.errorMap invalid_type
                [Key (js "results"); Key (js "web"); Index 0;
                 Key (js "description")] VUndefined) iss.
Proof.
  intros result rfields fields.
  assert (H1 : get (js "results") fields = VObj rfields) by reflexivity.
  assert (H2 : In (js "web") [js "web"; js "news"]) by now left.
  assert (H3 : get (js "web") rfields = VArr [VObj result]) by reflexivity.
  assert (H4 : nth_error [VObj result] 0 = Some (VObj result)) by reflexivity.
  assert (H5 : In (js "description") [js "url"; js "title"; js "description"])
    by (right; right; now left).
  assert (H6 : forall s, get (js "description") result <> VStr s)
    by (intros s; discriminate).
  destruct (result_field_violation_path Sample.errorMap Sample.isURL fields
              rfields (js "web") [VObj result] 0 result (js "description")
              H1 H2 H3 H4 H5 H6) as [iss [Hp [Hi _]]].
  repeat split; try assumption. now exists iss.
Defined.

Lemma contents_result_bad_url_path_witness :
  let result := [ (js "url", VStr (js "ftp://a.com")) ] in
  nth_error [VObj result] 0 = Some (VObj result)
  /\ get (js "url") result = VStr (js "ftp://a.com")
  /\ Sample.isURL (js "ftp://a.com") = false
  /\ exists iss,
       parse (ContentsResponseSchema Sample.errorMap Sample.isURL)
             (VArr [VObj result])
       = inl (ZodError iss)
       /\ In (addIssue Sample.errorMap invalid_string [Index 0; Key (js "url")]
                (VStr (js "ftp://a.com"))) iss.
Proof.
  intros result.
  assert (H1 : nth_error [VObj result] 0 = Some (VObj result)) by reflexivity.
  assert (H2 : get (js "url") result = VStr (js "ftp://a.com")) by reflexivity.
  assert (H3 : Sample.isURL (js "ftp://a.com") = false) by reflexivity.
  destruct (contents_result_bad_url_path Sample.errorMap Sample.isURL
              [VObj result] 0 result (js "ftp://a.com") H1 H2 H3)
    as [iss [Hp [Hi _]]].
  repeat split; try assumption. now exists iss.
Defined.

Lemma answer_of_wrong_type_fails_at_root_witness :
  let contentsAnswer := VObj [(js "error", VStr (js "quota exceeded"))] in
  (forall fields, VNull <> VObj fields)
  /\ (forall items, contentsAnswer <> VArr items)
  /\ parse (ContentsResponseSchema Sample.errorMap Sample.isURL) contentsAnswer
     = inl (ZodError [addIssue Sample.errorMap invalid_type [] contentsAnswer])
  /\ errorMessage [addIssue Sample.errorMap invalid_type [] contentsAnswer]
     = js "Validation error:" ++ [LF] ++ js "  1. root: Invalid input".
Proof.
  intros contentsAnswer.
  assert (H1 : forall fields, VNull <> VObj fields) by (intros; discriminate).
  assert (H2 : forall items, contentsAnswer <> VArr items)
    by (intros; discriminate).
  destruct (answer_of_wrong_type_fails_at_root Sample.errorMap Sample.isURL
              VNull contentsAnswer H1 H2) as [_ [Hc Hm]].
  split; [exact H1|]. split; [exact H2|]. split; [exact Hc|].
  exact (Hm contentsAnswer).
Defined.

Lemma item_failure_kinds_witness :
  let context := Sample.context (fun _ => Sample.contentsItem "," []) 1 true in
  let error := NodeOperationError (js "At least one URL is required") 0 in
  tryItem Sample.errorMap Sample.isURL context 0 [] = (inl error, [])
  /\ ((exists iss, error = ZodError iss)
      \/ error = NodeOperationError (js "At least one URL is required") 0
      \/ (exists msg, error = Error msg)).
Proof.
  intros context error.
  assert (H : tryItem Sample.errorMap Sample.isURL context 0 []
              = (inl error, [])) by reflexivity.
  split; [exact H|].
  destruct (item_failure_kinds Sample.errorMap Sample.isURL context 0 [] error []
              H) as [[_ [[iss [He _]]|[He|[_ He]]]]|[request [Hl _]]].
  - left. now exists iss.
  - right. now left.
  - right. right. eexists. exact He.
  - discriminate Hl.
Defined.

Lemma search_results_keep_their_fields_witness :
  let result := [ (js "url", VStr (js "https://a.com"));
                  (js "title", VStr (js "A"));
                  (js "description", VStr (js "first"));
                  (js "favicon_url", VStr (js "https://a.com/f.ico")) ] in
  let rfields := [ (js "web", VArr [VObj result]) ] in
  let fields := [ (js "results", VObj rfields) ] in
  parse (SearchResponseSchema Sample.errorMap Sample.isURL) (VObj fields)
  = inr (VObj fields)
  /\ exists outs,
       prop (prop (VObj fields) (js "results")) (js "web") = VArr outs
       /\ Forall2 (fun item out =>
                     exists raw, item = VObj raw
                                 /\ prop out (js "favicon_url")
                                    = get (js "favicon_url") raw)
                  [VObj result] outs.
Proof.
  intros result rfields fields.
  assert (H1 : parse (SearchResponseSchema Sample.errorMap Sample.isURL)
                 (VObj fields) = inr (VObj fields)) by reflexivity.
  split; [exact H1|].
  destruct (search_results_keep_their_fields Sample.errorMap Sample.isURL fields
              rfields (js "web") [VObj result] (VObj fields) H1 eq_refl
              (or_introl eq_refl) eq_refl) as [outs [Hout Hall]].
  exists outs. split; [exact Hout|].
  eapply Forall2_impl; [|exact Hall].
  intros item o [raw [Hi Hk]]. exists raw. split; [exact Hi|apply Hk].
Defined.

Lemma contents_results_keep_their_fields_witness :
  let items := [ VObj [ (js "url", VStr (js "https://a.com"));
                        (js "markdown", VStr (js "# A"));
                        (js "title", VStr (js "A")) ] ] in
  parse (ContentsResponseSchema Sample.errorMap Sample.isURL) (VArr items)
  = inr (VArr items)
  /\ exists outs,
       VArr items = VArr outs
       /\ Forall2 (fun item out =>
                     exists raw, item = VObj raw
                                 /\ prop out (js "title") = get (js "title") raw)
                  items outs.
Proof.
  intros items.
  assert (H1 : parse (ContentsResponseSchema Sample.errorMap Sample.isURL)
                 (VArr items) = inr (VArr items)) by reflexivity.
  split; [exact H1|].
  destruct (contents_results_keep_their_fields Sample.errorMap Sample.isURL
              items (VArr items) H1) as [outs [Hout Hall]].
  exists outs. split; [exact Hout|].
  eapply Forall2_impl; [|exact Hall].
  intros item o [raw [Hi Hk]]. exists raw. split; [exact Hi|].
  apply Hk. discriminate.
Defined.
